(** * MP4 Head Trimmer: a shallow embedding of [main.py] and [build.py]

    The development follows the layout of the program: the Python string,
    float-formatting and [pathlib] operations the program calls, then the
    toolchain locator, the file discoverer, the output-name builder and the
    [Worker] engine with the table the main window keeps, the slots of the
    main window and the packaging script, and finally the theorems about
    them.

    Conventions.
    - A Python [str] is a [string]; a character is a code point below 256.
    - A Python [float] is a binary64 [float] of the kernel, with the same
      round-to-nearest-even arithmetic and comparisons.
    - A [pathlib.Path] is the list of its parts (POSIX flavour), the root
      being the first part of an absolute path; [name], [stem] and [suffix]
      are those of Python 3.8 to 3.12.
    - The world outside the program (the file system, the two external
      executables, the controller that may call [cancel]) answers through
      explicit oracle records; every signal the worker emits and every
      external call it makes is appended to a trace.
    - Of the calls the worker makes without a [try], the two whose failure
      depends on the file system, [mkdir] and [Popen], may raise [OSError];
      the exception then leaves [run]. The other calls are taken not to
      raise. *)

From Stdlib Require Import ZArith NArith List String Ascii Bool Lia.
From Stdlib Require Import Floats DecimalString Permutation Sorted.
Import ListNotations.

#[local] Set Warnings "-inexact-float".
#[local] Open Scope string_scope.

(** ** Python [str] operations *)
Module PyStr.

(** [str.isspace] on one character (code points below 256). *)
Definition isspace (c : ascii) : bool :=
  let n := nat_of_ascii c in
  ((9 <=? n) && (n <=? 13) || (28 <=? n) && (n <=? 32)
   || (n =? 133) || (n =? 160))%nat.

Fixpoint lstrip (s : string) : string :=
  match s with
  | EmptyString => EmptyString
  | String c s' => if isspace c then lstrip s' else s
  end.

Fixpoint rstrip (s : string) : string :=
  match s with
  | EmptyString => EmptyString
  | String c s' =>
      match rstrip s' with
      | EmptyString => if isspace c then EmptyString else String c EmptyString
      | r => String c r
      end
  end.

(** [s.strip()] *)
Definition strip (s : string) : string := rstrip (lstrip s).

(** Truth value of a string: [bool(s)]. *)
Definition truthy (s : string) : bool :=
  match s with EmptyString => false | String _ _ => true end.

(** [a or b] on strings. *)
Definition or_else (a b : string) : string := if truthy a then a else b.

(** [str.lower] on one character (code points below 256). *)
Definition lower_char (c : ascii) : ascii :=
  let n := nat_of_ascii c in
  if ((65 <=? n) && (n <=? 90)
      || (192 <=? n) && (n <=? 222) && negb (n =? 215))%nat
  then ascii_of_nat (n + 32) else c.

Fixpoint lower (s : string) : string :=
  match s with
  | EmptyString => EmptyString
  | String c s' => String (lower_char c) (lower s')
  end.

Fixpoint rfind_from (c : ascii) (s : string) (i last : Z) : Z :=
  match s with
  | EmptyString => last
  | String a s' => rfind_from c s' (i + 1) (if Ascii.eqb a c then i else last)
  end.

(** [s.rfind(c)]: the highest index of [c] in [s], or [-1]. *)
Definition rfind (c : ascii) (s : string) : Z := rfind_from c s 0 (-1).

(** [len(s)] *)
Definition len (s : string) : Z := Z.of_nat (String.length s).

(** [s[:i]] and [s[i:]] for [0 <= i]. *)
Fixpoint take (n : nat) (s : string) : string :=
  match n, s with
  | S n', String c s' => String c (take n' s')
  | _, _ => EmptyString
  end.

Fixpoint drop (n : nat) (s : string) : string :=
  match n, s with
  | S n', String _ s' => drop n' s'
  | _, _ => s
  end.

(** [s.startswith(p)] *)
Definition startswith (p s : string) : bool := String.prefix p s.

(** [sep.join(parts)] *)
Fixpoint join (sep : string) (parts : list string) : string :=
  match parts with
  | [] => EmptyString
  | [p] => p
  | p :: rest => p ++ sep ++ join sep rest
  end.

(** [s.split(c)] for a one-character separator. *)
Fixpoint split (c : ascii) (s : string) : list string :=
  match s with
  | EmptyString => [EmptyString]
  | String a s' =>
      if Ascii.eqb a c then EmptyString :: split c s'
      else match split c s' with
           | [] => [String a EmptyString]
           | w :: ws => String a w :: ws
           end
  end.

(** [str(n)] for a natural number. *)
Definition of_N (n : N) : string := NilZero.string_of_uint (N.to_uint n).

Fixpoint zeros (n : nat) : string :=
  match n with O => EmptyString | S n' => String "0" (zeros n') end.

(** [str(n).zfill(w)] *)
Definition zfill (w : nat) (n : N) : string :=
  let d := of_N n in zeros (w - String.length d) ++ d.

(** [s.rstrip('0')] *)
Fixpoint rstrip_zeros (s : string) : string :=
  match s with
  | EmptyString => EmptyString
  | String c s' =>
      match rstrip_zeros s' with
      | EmptyString => if Ascii.eqb c "0" then EmptyString else String c EmptyString
      | r => String c r
      end
  end.

End PyStr.

(** ** Python float formatting

    [format(x, '.2f')] and [format(x, 'g')] are correctly rounded (ties to
    even) on the exact binary value of [x]; they are computed here on the
    mantissa and exponent of [x] with integer arithmetic. *)
Module PyFloat.

#[local] Open Scope Z_scope.

(** [num / den] rounded to the nearest integer, ties to even ([den > 0]). *)
Definition round_half_even (num den : Z) : Z :=
  let q := num / den in
  let r := num mod den in
  match 2 * r ?= den with
  | Lt => q
  | Gt => q + 1
  | Eq => if Z.even q then q else q + 1
  end.

(** Numerator and denominator of [m * 2^e * 10^k]. *)
Definition scaled_num (m : positive) (e k : Z) : Z :=
  Zpos m * (if 0 <=? e then 2 ^ e else 1) * (if 0 <=? k then 10 ^ k else 1).

Definition scaled_den (e k : Z) : Z :=
  (if 0 <=? e then 1 else 2 ^ (- e)) * (if 0 <=? k then 1 else 10 ^ (- k)).

(** [m * 2^e * 10^k] rounded to an integer. *)
Definition scaled (m : positive) (e k : Z) : Z :=
  round_half_even (scaled_num m e k) (scaled_den e k).

Definition sign_str (s : bool) : string :=
  if s then "-" else EmptyString.

(** Fixed notation of [n / 10^prec] with [prec] fractional digits. *)
Definition fixed (s : bool) (n : Z) (prec : nat) : string :=
  let p := 10 ^ Z.of_nat prec in
  sign_str s ++ PyStr.of_N (Z.to_N (n / p))
  ++ match prec with
     | O => EmptyString
     | _ => "." ++ PyStr.zfill prec (Z.to_N (n mod p))
     end.

(** [format(x, '.<prec>f')] *)
Definition format_f (prec : nat) (x : float) : string :=
  match Prim2SF x with
  | S754_nan => "nan"
  | S754_infinity s => sign_str s ++ "inf"
  | S754_zero s => fixed s 0 prec
  | S754_finite s m e => fixed s (scaled m e (Z.of_nat prec)) prec
  end.

(** [f"{x:.2f}"] *)
Definition format_2f (x : float) : string := format_f 2 x.

(** [10^x <= m * 2^e] *)
Definition ge_pow10 (m : positive) (e x : Z) : bool :=
  scaled_den e (- x) <=? scaled_num m e (- x).

Fixpoint climb (fuel : nat) (m : positive) (e x : Z) : Z :=
  match fuel with
  | O => x
  | S fuel' => if ge_pow10 m e (x + 1) then climb fuel' m e (x + 1) else x
  end.

(** The decimal exponent of [m * 2^e]: the [x] with
    [10^x <= m * 2^e < 10^(x+1)], searched upwards from a lower estimate. *)
Definition exponent10 (m : positive) (e : Z) : Z :=
  let l := Z.log2 (Zpos m) + e in
  climb 8 m e ((l - 1) * 30103 / 100000 - 1).

(** The six significant digits of [m * 2^e] and their decimal exponent. *)
Definition digits6 (m : positive) (e : Z) : Z * Z :=
  let x := exponent10 m e in
  let d := scaled m e (5 - x) in
  if d =? 10 ^ 6 then (10 ^ 5, x + 1) else (d, x).

(** [format(x, 'g')]: six significant digits, trailing zeros removed,
    scientific notation when the exponent is below -4 or at least 6. *)
Definition format_g (x : float) : string :=
  match Prim2SF x with
  | S754_nan => "nan"
  | S754_infinity s => sign_str s ++ "inf"
  | S754_zero s => sign_str s ++ "0"
  | S754_finite s m e =>
      let '(d, x10) := digits6 m e in
      let ds := PyStr.rstrip_zeros (PyStr.of_N (Z.to_N d)) in
      let n := String.length ds in
      sign_str s ++
      if (-4 <=? x10) && (x10 <? 6) then
        if 0 <=? x10 then
          let k := Z.to_nat (x10 + 1) in
          if (n <=? k)%nat then ds ++ PyStr.zeros (k - n)
          else PyStr.take k ds ++ "." ++ PyStr.drop k ds
        else "0." ++ PyStr.zeros (Z.to_nat (- x10 - 1)) ++ ds
      else
        PyStr.take 1 ds
        ++ (if (1 <? n)%nat then "." ++ PyStr.drop 1 ds else EmptyString)
        ++ "e" ++ (if x10 <? 0 then "-" else "+")
        ++ PyStr.zfill 2 (Z.to_N (Z.abs x10))
  end.

End PyFloat.

(** ** [pathlib] paths (POSIX flavour) *)
Module PathLib.

(** A path is the list of its parts; an absolute path starts with its
    root. *)
Definition Path := list string.

Definition has_root (p : Path) : bool :=
  match p with
  | r :: _ => PyStr.startswith "/" r
  | [] => false
  end.

(** [Path(s)]: split on the separator, drop empty and [.] components,
    keep the root (two leading slashes, and only two, are kept as such). *)
Definition root_of (s : string) : list string :=
  if PyStr.startswith "///" s then ["/"]
  else if PyStr.startswith "//" s then ["//"]
  else if PyStr.startswith "/" s then ["/"]
  else [].

Definition component (c : string) : bool :=
  negb (String.eqb c EmptyString || String.eqb c ".").

Definition of_str (s : string) : Path :=
  (root_of s ++ filter component (PyStr.split "/" s))%list.

(** [str(p)] *)
Definition str (p : Path) : string :=
  match p with
  | [] => "."
  | r :: rest =>
      if has_root p then r ++ PyStr.join "/" rest else PyStr.join "/" p
  end.

(** [p.name]: the last part, unless the path is only its root. *)
Definition name (p : Path) : string :=
  if (List.length p =? (if has_root p then 1 else 0))%nat then EmptyString
  else last p EmptyString.

(** [p.suffix] *)
Definition suffix (p : Path) : string :=
  let name := name p in
  let i := PyStr.rfind "." name in
  if ((0 <? i) && (i <? PyStr.len name - 1))%Z
  then PyStr.drop (Z.to_nat i) name
  else EmptyString.

(** [p.stem] *)
Definition stem (p : Path) : string :=
  let name := name p in
  let i := PyStr.rfind "." name in
  if ((0 <? i) && (i <? PyStr.len name - 1))%Z
  then PyStr.take (Z.to_nat i) name
  else name.

(** [p.parent] *)
Definition parent (p : Path) : Path :=
  if (List.length p =? (if has_root p then 1 else 0))%nat then p
  else removelast p.

(** [p / q] *)
Definition joinpath (p q : Path) : Path :=
  if has_root q then q else (p ++ q)%list.

(** [p / s] for a string [s]. *)
Definition div (p : Path) (s : string) : Path := joinpath p (of_str s).

(** [p.with_suffix(sfx)] for a path with a name and a suffix that is empty
    or starts with a dot (otherwise Python raises [ValueError]; the one
    call of the program is on the names [ffmpeg] and [ffprobe] with
    [.exe]). *)
Definition with_suffix (sfx : string) (p : Path) : Path :=
  (removelast p ++ [(stem p ++ sfx)%string])%list.

(** Comparison of paths: the lists of parts, compared as Python compares
    lists of strings. *)
Fixpoint compare (p q : Path) : comparison :=
  match p, q with
  | [], [] => Eq
  | [], _ :: _ => Lt
  | _ :: _, [] => Gt
  | a :: p', b :: q' =>
      match String.compare a b with
      | Eq => compare p' q'
      | c => c
      end
  end.

(** [p < q] *)
Definition ltb (p q : Path) : bool :=
  match compare p q with Lt => true | _ => false end.

(** [p <= q] *)
Definition leb (p q : Path) : bool :=
  match compare p q with Gt => false | _ => true end.

End PathLib.

(** ** Python [list.sort]

    The sort is stable and compares with [<] only; insertion from the right
    end gives the same result as any stable sort. *)
Module PyList.
Section Sort.
Variable A : Type.
Variable lt : A -> A -> bool.

Fixpoint insert (x : A) (l : list A) : list A :=
  match l with
  | [] => [x]
  | y :: l' => if lt y x then y :: insert x l' else x :: l
  end.

Fixpoint sort (l : list A) : list A :=
  match l with
  | [] => []
  | x :: l' => insert x (sort l')
  end.
End Sort.
Arguments insert {A} lt x l.
Arguments sort {A} lt l.
End PyList.

Import PathLib.

(** ** The program: data classes and top-level functions *)

Record FileJob := mkFileJob
  { input_path : Path;
    output_path : Path;
    display_name : string }.

Record FfmpegPaths := mkFfmpegPaths
  { ffmpeg : Path;
    ffprobe : Path }.

(** What [locate_ffmpeg] asks of the host: [sys.platform], [Path.exists]
    and [shutil.which] ([None] when the name does not resolve). *)
Record Host := mkHost
  { platform : string;
    path_exists : Path -> bool;
    which : string -> option string }.

(** Truth value of an optional string: neither [None] nor empty. *)
Definition resolved (r : option string) : bool :=
  match r with
  | Some s => PyStr.truthy s
  | None => false
  end.

Definition locate_ffmpeg (h : Host) (app_dir : Path) : option FfmpegPaths :=
  let local_ffmpeg := div (div app_dir "bin") "ffmpeg" in
  let local_ffprobe := div (div app_dir "bin") "ffprobe" in
  let '(local_ffmpeg, local_ffprobe) :=
    if PyStr.startswith "win" (platform h)
    then (with_suffix ".exe" local_ffmpeg, with_suffix ".exe" local_ffprobe)
    else (local_ffmpeg, local_ffprobe) in
  if path_exists h local_ffmpeg && path_exists h local_ffprobe then
    Some (mkFfmpegPaths local_ffmpeg local_ffprobe)
  else
    let ffmpeg_path := which h "ffmpeg" in
    let ffprobe_path := which h "ffprobe" in
    if resolved ffmpeg_path && resolved ffprobe_path then
      match ffmpeg_path, ffprobe_path with
      | Some f, Some p => Some (mkFfmpegPaths (of_str f) (of_str p))
      | _, _ => None
      end
    else None.

Definition is_mp4 (path : Path) : bool :=
  String.eqb (PyStr.lower (suffix path)) ".mp4".

Definition build_output_name (input_path : Path) (trim_seconds : float)
    (overwrite : bool) : string :=
  if overwrite then name input_path
  else
    let sfx := "_trim" ++ PyFloat.format_g trim_seconds ++ "s" in
    stem input_path ++ sfx ++ suffix input_path.

(** ** The worker *)
Module Worker.

(** The fields set by [__init__] that never change. *)
Record t := mk
  { jobs : list FileJob;
    trim_seconds : float;
    overwrite : bool;
    ffmpeg_paths : FfmpegPaths }.

(** The four signals of the class. *)
Inductive signal :=
| progress (row : nat) (status message : string)
| log (text : string)
| overall (current total : nat)
| finished.

(** What the worker does that the outside can observe: a signal emitted,
    or a call out of the program. The trimmer call records the executable,
    the overwrite flag ([-y] or [-n]), the offset passed after [-ss] and
    the two paths. *)
Inductive action :=
| emit (s : signal)
| run_ffprobe (exe input : Path)
| mkdir (dir : Path)
| popen_ffmpeg (exe : Path) (flag : string) (ss : float) (input output : Path)
| terminate.

(** A [subprocess.Popen] handle: [poll] is [None] while the process
    runs. *)
Record Popen := mkPopen { poll : option Z }.

(** The fields the worker mutates. *)
Record state := mkState
  { _cancel : bool;
    _current_process : option Popen }.

(** The state [__init__] leaves. *)
Definition init : state := mkState false None.

(** [cancel]: set the flag, and terminate the current process if it is
    still running. The boolean tells whether [terminate] was called. *)
Definition cancel (st : state) : state * bool :=
  let st := mkState true (_current_process st) in
  match _current_process st with
  | Some p =>
      match poll p with
      | None => (st, true)
      | Some _ => (st, false)
      end
  | None => (st, false)
  end.

Record CompletedProcess := mkCompleted
  { returncode : Z;
    stdout : string;
    stderr : string }.

(** *** The world of one job

    [subprocess.run] on the prober either raises [OSError] or completes
    with some standard output, on whose stripped text [float] either
    returns a value or raises [ValueError] ([None]). *)
Inductive probe_outcome :=
| probe_OSError (exc : string)
| probe_completed (out : string) (as_float : option float).

(** When the controller calls [cancel] during an iteration, if it does:
    while no process is in flight, or while the trimmer runs (when the
    iteration never starts the trimmer the call lands while no process is
    in flight). *)
Inductive cancel_time := no_cancel | cancel_idle | cancel_in_flight.

Record job_world := mkWorld
  { probe : probe_outcome;
    mkdir_error : option string;
    output_exists : bool;
    popen_error : option string;
    (** the result of [communicate], given whether [terminate] was sent *)
    communicate : bool -> CompletedProcess;
    cancel_call : cancel_time }.

Definition requested (c : cancel_time) : bool :=
  match c with no_cancel => false | _ => true end.

(** *** Control flow of one iteration of the loop

    A step emits actions, updates the state and either goes on with a
    value, executes [continue], or raises. *)
Inductive flow (A : Type) :=
| next (a : A)
| continue_
| raised (exc : string).
Arguments next {A} a.
Arguments continue_ {A}.
Arguments raised {A} exc.

Definition M (A : Type) : Type := state -> list action * state * flow A.

Definition ret {A} (a : A) : M A := fun st => ([], st, next a).

Definition bind {A B} (m : M A) (f : A -> M B) : M B :=
  fun st =>
    let '(tr, st1, r) := m st in
    match r with
    | next a => let '(tr', st2, r') := f a st1 in ((tr ++ tr')%list, st2, r')
    | continue_ => (tr, st1, continue_)
    | raised exc => (tr, st1, raised exc)
    end.

Definition act (a : action) : M unit := fun st => ([a], st, next tt).
Definition send (s : signal) : M unit := act (emit s).
Definition continue {A} : M A := fun st => ([], st, continue_).
Definition raise {A} (exc : string) : M A := fun st => ([], st, raised exc).
Definition set_current_process (p : Popen) : M unit :=
  fun st => ([], mkState (_cancel st) (Some p), next tt).

(** A call of [cancel] by the controller, between two steps of the
    worker. *)
Definition cancel_arrives : M bool :=
  fun st =>
    let '(st', sent) := cancel st in
    (if sent then [terminate] else [], st', next sent).

Notation "x <- m ;; k" := (bind m (fun x => k))
  (at level 61, m at next level, right associativity).
Notation "m ;;; k" := (bind m (fun _ => k))
  (at level 61, right associativity).

Definition _probe_duration (w : t) (jw : job_world) (input_path : Path)
  : M (option float) :=
  act (run_ffprobe (ffprobe (ffmpeg_paths w)) input_path) ;;;
  match probe jw with
  | probe_OSError exc =>
      send (log ("Failed to run ffprobe: " ++ exc)) ;;;
      ret None
  | probe_completed out as_float =>
      let duration_text := PyStr.strip out in
      if negb (PyStr.truthy duration_text) then
        send (log ("ffprobe returned no duration for "
                   ++ str input_path ++ ".")) ;;;
        ret None
      else
        match as_float with
        | Some d => ret (Some d)
        | None =>
            send (log ("Could not parse duration '" ++ duration_text
                       ++ "' for " ++ str input_path ++ ".")) ;;;
            ret None
        end
  end.

Definition _run_ffmpeg (w : t) (jw : job_world) (input_path output_path : Path)
  : M CompletedProcess :=
  act (popen_ffmpeg (ffmpeg (ffmpeg_paths w))
         (if overwrite w then "-y" else "-n")
         (trim_seconds w) input_path output_path) ;;;
  match popen_error jw with
  | Some exc => raise exc
  | None =>
      set_current_process (mkPopen None) ;;;
      terminated <- match cancel_call jw with
                    | cancel_in_flight => cancel_arrives
                    | _ => ret false
                    end ;;
      let result := communicate jw terminated in
      set_current_process (mkPopen (Some (returncode result))) ;;;
      ret result
  end.

(** The body of the loop of [run], after the check of the cancel flag. *)
Definition iteration (w : t) (jw : job_world) (total index : nat)
    (job : FileJob) : M unit :=
  send (overall index total) ;;;
  send (progress (index - 1) "Processing" EmptyString) ;;;
  duration <- _probe_duration w jw (input_path job) ;;
  match duration with
  | Some duration =>
      if (duration <=? trim_seconds w + 0.01)%float then
        let message :=
          "Duration " ++ PyFloat.format_2f duration
          ++ "s is shorter than trim "
          ++ PyFloat.format_2f (trim_seconds w) ++ "s" in
        send (progress (index - 1) "Skipped" message) ;;;
        send (log ("Skipping " ++ str (input_path job) ++ ": " ++ message)) ;;;
        continue
      else ret tt
  | None =>
      send (log ("Warning: proceeding without duration info for "
                 ++ str (input_path job) ++ "."))
  end ;;;
  act (mkdir (parent (output_path job))) ;;;
  match mkdir_error jw with
  | Some exc => raise exc
  | None => ret tt
  end ;;;
  (if output_exists jw && negb (overwrite w) then
     let message := "Output exists and overwrite is disabled" in
     send (progress (index - 1) "Skipped" message) ;;;
     send (log ("Skipping " ++ str (output_path job) ++ ": " ++ message)) ;;;
     continue
   else ret tt) ;;;
  result <- _run_ffmpeg w jw (input_path job) (output_path job) ;;
  if negb (returncode result =? 0)%Z then
    let error_text :=
      PyStr.or_else (PyStr.strip (stderr result)) "Unknown ffmpeg error" in
    send (progress (index - 1) "Failed" error_text) ;;;
    send (log ("ffmpeg failed for " ++ str (input_path job) ++ ": "
               ++ error_text)) ;;;
    continue
  else
    (if PyStr.truthy (PyStr.strip (stderr result))
     then send (log (PyStr.strip (stderr result)))
     else ret tt) ;;;
    send (progress (index - 1) "Done" EmptyString).

(** How the loop ends. *)
Inductive loop_exit :=
| exhausted
| broke
| uncaught (exc : string).

(** A call of [cancel] that did not land while the trimmer ran lands
    before the next check of the flag. *)
Definition late_cancel (c : cancel_time) (st : state) : list action * state :=
  if requested c && negb (_cancel st) then
    let '(st', sent) := cancel st in
    (if sent then [terminate] else [], st')
  else ([], st).

(** [for index, job in enumerate(self.jobs, start=1)]: the world of the
    job of index [i] is [world i]. *)
Fixpoint loop (w : t) (world : nat -> job_world) (total index : nat)
    (js : list FileJob) (st : state) : list action * state * loop_exit :=
  match js with
  | [] => ([], st, exhausted)
  | job :: rest =>
      if _cancel st then
        ([emit (progress (index - 1) "Canceled" "Canceled by user")],
         st, broke)
      else
        let '(tr, st1, r) := iteration w (world index) total index job st in
        match r with
        | raised exc => (tr, st1, uncaught exc)
        | _ =>
            let '(tr_c, st2) := late_cancel (cancel_call (world index)) st1 in
            let '(tr', st3, x) := loop w world total (S index) rest st2 in
            ((tr ++ tr_c ++ tr')%list, st3, x)
        end
  end.

(** How [run] ends: it returns, or an exception leaves it. *)
Inductive outcome :=
| returned
| exception (exc : string).

(** [run], entered in the state [st]: [init], unless the controller has
    called [cancel] before the thread reached the loop. *)

Definition run (w : t) (world : nat -> job_world) (st : state)
  : list action * state * outcome :=
  let total := List.length (jobs w) in
  let '(tr, st', x) := loop w world total 1 (jobs w) st in
  match x with
  | uncaught exc => (tr, st', exception exc)
  | _ => ((tr ++ [emit (overall total total); emit finished])%list,
          st', returned)
  end.

End Worker.

(** ** The main window: discovery and the job table *)
Module MainWindow.

(** One entry of a directory listing: its path, and [Path.is_file]. *)
Record DirEntry := mkEntry
  { entry_path : Path;
    is_file : bool }.

(** What [_scan_files] asks of the file system about the source folder:
    [source.exists()], [source.iterdir()] and [source.rglob("*")], the
    listings in the order the file system gives them. *)
Record Source := mkSource
  { source_exists : bool;
    iterdir : list DirEntry;
    rglob : list DirEntry }.

(** A row of the table: file, status, message. *)
Record row := mkRow
  { file : string;
    status : string;
    message : string }.

Record window := mkWindow
  { file_paths : list Path;
    table : list row }.

(** [p.relative_to(source)] for a path [p] listed under [source]. *)
Definition relative_to (source p : Path) : Path :=
  skipn (List.length source) p.

Definition _scan_files (source : Path) (fs : Source)
    (include_subfolders : bool) (win : window) : window :=
  if negb (source_exists fs) then win
  else
    let listing := if include_subfolders then rglob fs else iterdir fs in
    let files :=
      map entry_path
        (filter (fun e => is_file e && is_mp4 (entry_path e)) listing) in
    let files := PyList.sort PathLib.ltb files in
    mkWindow files
      (map (fun file_path =>
              let display_name :=
                if include_subfolders
                then str (relative_to source file_path)
                else name file_path in
              mkRow display_name "Pending" EmptyString)
         files).

(** [table.setItem(row, 1, status); table.setItem(row, 2, message)] *)
Fixpoint setItem (tbl : list row) (r : nat) (st msg : string) : list row :=
  match tbl, r with
  | [], _ => []
  | x :: tbl', O => mkRow (file x) st msg :: tbl'
  | x :: tbl', S r' => x :: setItem tbl' r' st msg
  end.

Definition _update_progress (tbl : list row) (r : nat) (st msg : string)
  : list row :=
  if (r <? List.length tbl)%nat then setItem tbl r st msg else tbl.

(** The slot connected to each signal of the worker; only [progress]
    changes the table. *)
Definition handle (tbl : list row) (a : Worker.action) : list row :=
  match a with
  | Worker.emit (Worker.progress r st msg) => _update_progress tbl r st msg
  | _ => tbl
  end.

(** The table after the signals of a trace, in the order of emission. *)
Definition deliver (tbl : list row) (tr : list Worker.action) : list row :=
  fold_left handle tr tbl.

(** The status shown in a row ([None] when the table has no such row). *)
Definition status_of (tbl : list row) (r : nat) : option string :=
  option_map status (nth_error tbl r).

End MainWindow.

(** ** The main window: its widgets and its slots

    The state is what the slots read and write: the text of the line
    edits, the value of the spin box, the check boxes, which buttons are
    enabled, the table, what was last set on the progress bar and its
    label, the lines of the log panel and the worker. A slot returns what
    it does besides: the message boxes it shows and the worker thread it
    starts, in this order. The file system answers for the source folder a
    slot asks about, and gives the same answer throughout one slot. *)
Module Gui.

Inductive dialog :=
| critical (title text : string)
| warning (title text : string)
| information (title text : string).

Inductive effect :=
| show (box : dialog)
| start_thread (w : Worker.t).

Definition FileSystem := Path -> MainWindow.Source.

Record Settings := mkSettings
  { source_edit : string;
    output_edit : string;
    trim_spin : float;
    include_subfolders : bool;
    preserve_structure : bool;
    preserve_structure_enabled : bool;
    overwrite_check : bool }.

(** [isEnabled] of the three action buttons. *)
Record Buttons := mkButtons
  { scan_button : bool;
    start_button : bool;
    cancel_button : bool }.

(** The last [setMaximum] and [setValue] of the progress bar, and the text
    of its label. *)
Record Progress := mkProgress
  { bar_maximum : nat;
    bar_value : nat;
    progress_label : string }.

Record t := mk
  { ffmpeg_paths : option FfmpegPaths;
    settings : Settings;
    buttons : Buttons;
    win : MainWindow.window;
    progress_bar : Progress;
    log_panel : list string;
    worker : option Worker.t }.




Definition _append_log (message : string) (ui : t) : t :=
  mk (ffmpeg_paths ui) (settings ui) (buttons ui) (win ui) (progress_bar ui)
    (log_panel ui ++ [message]) (worker ui).

(** [str(n)] for a length or a count. *)
Definition str_nat (n : nat) : string := PyStr.of_N (N.of_nat n).

Definition missing_source : dialog :=
  warning "Missing Source" "Select a valid source folder.".

Definition _scan_files (fs : FileSystem) (ui : t) : list effect * t :=
  let source := of_str (PyStr.strip (source_edit (settings ui))) in
  if negb (MainWindow.source_exists (fs source)) then
    ([show missing_source], ui)
  else
    let win' :=
      MainWindow._scan_files source (fs source)
        (include_subfolders (settings ui)) (win ui) in
    let files := MainWindow.file_paths win' in
    let count := List.length files in
    ([],
     _append_log ("Found " ++ str_nat count ++ " MP4 file(s).")
       (mk (ffmpeg_paths ui) (settings ui) (buttons ui) win'
          (mkProgress (match files with [] => 1 | _ => count end) 0
             ("Processed 0 of " ++ str_nat count))
          (log_panel ui) (worker ui))).

(** The body of the loop of [_start_processing] over the rows of the
    table: the job of the row that shows [display_name]. *)
Definition job_for_row (source output_root : Path) (trim_seconds : float)
    (overwrite include_subfolders preserve_structure : bool)
    (display_name : string) : FileJob :=
  let input_path :=
    if include_subfolders then div source display_name
    else div source display_name in
  let relative_dir :=
    if preserve_structure then parent (of_str display_name) else [] in
  let output_dir := joinpath output_root relative_dir in
  let output_name := build_output_name input_path trim_seconds overwrite in
  let output_path := div output_dir output_name in
  mkFileJob input_path output_path display_name.





Definition _update_progress (row : nat) (status message : string) (ui : t)
  : t :=
  mk (ffmpeg_paths ui) (settings ui) (buttons ui)
    (MainWindow.mkWindow (MainWindow.file_paths (win ui))
       (MainWindow._update_progress (MainWindow.table (win ui)) row status
          message))
    (progress_bar ui) (log_panel ui) (worker ui).

Definition _update_overall (current total : nat) (ui : t) : t :=
  mk (ffmpeg_paths ui) (settings ui) (buttons ui) (win ui)
    (mkProgress (if (total =? 0)%nat then 1 else total)
       (Nat.min current total)
       ("Processed " ++ str_nat (Nat.min current total) ++ " of "
        ++ str_nat total))
    (log_panel ui) (worker ui).

Definition _processing_finished (ui : t) : t :=
  _append_log "Processing complete."
    (mk (ffmpeg_paths ui) (settings ui) (mkButtons true true false) (win ui)
       (progress_bar ui) (log_panel ui) (worker ui)).

(** The slot [_start_processing] connects to each signal of the worker. *)
Definition handle (ui : t) (a : Worker.action) : t :=
  match a with
  | Worker.emit (Worker.progress row status message) =>
      _update_progress row status message ui
  | Worker.emit (Worker.log message) => _append_log message ui
  | Worker.emit (Worker.overall current total) =>
      _update_overall current total ui
  | Worker.emit Worker.finished => _processing_finished ui
  | _ => ui
  end.

(** The window after the signals of a trace, in the order of emission. *)
Definition deliver (ui : t) (tr : list Worker.action) : t :=
  fold_left handle tr ui.

End Gui.

(** ** The packaging script, [build.py] *)
Module Build.

(** The executable names and the separator of [--add-binary] for the
    platform of the host. *)
Definition names (h : Host) : string * string * string :=
  if PyStr.startswith "win" (platform h)
  then ("ffmpeg.exe", "ffprobe.exe", ";")
  else ("ffmpeg", "ffprobe", ":").

Definition add_binaries (h : Host) (project_root : Path) : list string :=
  let bin_dir := div project_root "bin" in
  let '(ffmpeg_name, ffprobe_name, separator) := names h in
  let ffmpeg_path := div bin_dir ffmpeg_name in
  let ffprobe_path := div bin_dir ffprobe_name in
  let option_of (path : Path) := (str path ++ separator ++ "bin")%string in
  ((if path_exists h ffmpeg_path then [option_of ffmpeg_path] else [])
   ++ (if path_exists h ffprobe_path then [option_of ffprobe_path] else []))%list.

(** The command line given to [subprocess.check_call]; [executable] is
    [sys.executable]. *)
Definition command (h : Host) (project_root : Path) (executable : string)
  : list string :=
  ([executable; "-m"; "PyInstaller"; "--name"; "MP4HeadTrimmer";
    "--noconfirm"; "--clean"; "--windowed"; "--onedir"; "main.py"]
   ++ flat_map (fun binary => ["--add-binary"; binary])
        (add_binaries h project_root))%list.

(** [build]: the command, the directory it runs in, and how [check_call]
    ends for the return code of the command: it raises
    [CalledProcessError] unless the code is zero. *)
Definition build (h : Host) (project_root : Path) (executable : string)
    (returncode : Z) : list string * Path * option Z :=
  (command h project_root executable, project_root,
   if (returncode =? 0)%Z then None else Some returncode).

End Build.

(** ** Vocabulary of the specification *)

(** The executable [exe] in the bundled directory of [app_dir], with the
    platform's suffix. *)
Definition bundled_exe (h : Host) (app_dir : Path) (exe : string) : Path :=
  let file := if PyStr.startswith "win" (platform h)
              then exe ++ ".exe" else exe in
  (app_dir ++ ["bin"; file])%list.

(** [p <= q] in the order of paths, as [list.sort] sees it: not [q < p]. *)
Definition path_le (p q : Path) : Prop := PathLib.ltb q p = false.

Import Worker.

(** The trace and the control flow of one iteration do not depend on the
    state it starts from; they are named after the job. *)
Definition job_trace (w : Worker.t) (jw : job_world) (total index : nat)
    (job : FileJob) : list action :=
  fst (fst (iteration w jw total index job init)).

Definition job_flow (w : Worker.t) (jw : job_world) (total index : nat)
    (job : FileJob) : flow unit :=
  snd (iteration w jw total index job init).

(** The last status a trace reports for a row, if any. *)
Fixpoint last_progress (r : nat) (tr : list action) : option string :=
  match tr with
  | [] => None
  | a :: tr' =>
      match last_progress r tr' with
      | Some s => Some s
      | None =>
          match a with
          | emit (progress r' s _) => if (r' =? r)%nat then Some s else None
          | _ => None
          end
      end
  end.

(** The statuses a job ends in when its iteration runs to its end. *)
Definition completed (s : string) : Prop :=
  s = "Skipped" \/ s = "Failed" \/ s = "Done".

(** The statuses an iteration can report. *)
Definition reported (s : string) : Prop :=
  s = "Processing" \/ completed s.

(** The table a scan leaves for the jobs of a worker: one row per job,
    every status [Pending]. *)
Definition fresh_table (w : Worker.t) : list MainWindow.row :=
  map (fun job => MainWindow.mkRow (display_name job) "Pending" EmptyString)
    (jobs w).

(** No call of [cancel] during the iterations of the jobs [i .. j-1]. *)
Definition quiet (world : nat -> job_world) (i j : nat) : Prop :=
  forall n, i <= n < j -> cancel_call (world n) = no_cancel.


(** The probe of a job gave the duration [d]. *)
Definition probe_gave (jw : job_world) (d : float) : Prop :=
  exists out, probe jw = probe_completed out (Some d)
              /\ PyStr.strip out <> EmptyString.

(** The message of the skip for a short duration. *)
Definition short_message (d t : float) : string :=
  "Duration " ++ PyFloat.format_2f d ++ "s is shorter than trim "
  ++ PyFloat.format_2f t ++ "s".

(** The trimmer call of a job. *)
Definition trimmer_call (w : Worker.t) (job : FileJob) : action :=
  popen_ffmpeg (ffmpeg (ffmpeg_paths w)) (if overwrite w then "-y" else "-n")
    (trim_seconds w) (input_path job) (output_path job).

(** What [communicate] returns for a job: the controller's [cancel] has
    terminated the process exactly when it landed while the trimmer ran. *)
Definition trimmer_result (jw : job_world) : CompletedProcess :=
  communicate jw
    match cancel_call jw with cancel_in_flight => true | _ => false end.

(** The text of a [Failed] event. *)
Definition error_text (result : CompletedProcess) : string :=
  PyStr.or_else (PyStr.strip (stderr result)) "Unknown ffmpeg error".

(** The offsets the trim spin box can hold: two decimals, from 0.01 to
    99.99, each the binary64 value nearest to [n / 100]. *)
Definition spin_value (n : Z) : float :=
  (PrimFloat.of_uint63 (Uint63.of_Z n) / 100)%float.

(** At the offset [t]: a duration of [t] is at or below the threshold of
    the duration check, a duration of [t + 0.02] is above it. *)
Definition boundary_ok (t : float) : bool :=
  ((t <=? t + 0.01) && negb (t + 0.02 <=? t + 0.01))%float.

(** [boundary_ok] at the [fuel] offsets from [n / 100] on. *)
Fixpoint boundaries_from (fuel : nat) (n : Z) : bool :=
  match fuel with
  | O => true
  | S fuel' => boundary_ok (spin_value n) && boundaries_from fuel' (n + 1)
  end.

(** The trace of a run and the way it ends. *)
Definition trace_of (w : Worker.t) (world : nat -> job_world) (st : state)
  : list action := fst (fst (run w world st)).

Definition outcome_of (w : Worker.t) (world : nat -> job_world) (st : state)
  : outcome := snd (run w world st).

(** A [Canceled] event. *)
Definition is_canceled (a : action) : bool :=
  match a with
  | emit (progress _ s _) => String.eqb s "Canceled"
  | _ => false
  end.

(** The event the check of the flag emits for row [r]. *)
Definition canceled_event (r : nat) : action :=
  emit (progress r "Canceled" "Canceled by user").


(** ** Sample runs *)

Definition toolchain : FfmpegPaths :=
  mkFfmpegPaths (of_str "/usr/bin/ffmpeg") (of_str "/usr/bin/ffprobe").

(** The job the planner makes of [/videos/<stem>.mp4] for an offset of two
    seconds, without overwriting. *)
Definition clip (stem : string) : FileJob :=
  mkFileJob (of_str ("/videos/" ++ stem ++ ".mp4"))
    (of_str ("/videos/trimmed/" ++ stem ++ "_trim2s.mp4"))
    (stem ++ ".mp4").

Definition three_clips : Worker.t :=
  Worker.mk [clip "a"; clip "b"; clip "c"] 2 false toolchain.

(** A trimmer that exits with 0, or with -15 when it is terminated. *)
Definition trimmer_ok (terminated : bool) : CompletedProcess :=
  if terminated then mkCompleted (-15) EmptyString EmptyString
  else mkCompleted 0 EmptyString EmptyString.

(** A job of 10.5 seconds whose output does not exist yet. *)
Definition healthy (c : cancel_time) : job_world :=
  mkWorld (probe_completed "10.500000" (Some 10.5%float)) None false None
    trimmer_ok c.

(** Every job healthy, [cancel] called during the job of index [k]. *)
Definition cancel_during (k : nat) (c : cancel_time) (i : nat) : job_world :=
  healthy (if (i =? k)%nat then c else no_cancel).

Definition one_clip : Worker.t := Worker.mk [clip "a"] 2 false toolchain.

(** A trimmer that fails on its own, and exits with -15 when terminated. *)
Definition trimmer_broken (terminated : bool) : CompletedProcess :=
  if terminated then mkCompleted (-15) EmptyString EmptyString
  else mkCompleted 1 EmptyString "moov atom not found".

(** Every job healthy but the second, whose trimmer fails. *)
Definition second_fails (i : nat) : job_world :=
  if (i =? 2)%nat
  then mkWorld (probe_completed "10.500000" (Some 10.5%float)) None false None
         trimmer_broken no_cancel
  else healthy no_cancel.



(** The probe gives the offset plus 0.02 seconds, and the output file is
    already there. *)
Definition long_enough_stale_output (i : nat) : job_world :=
  mkWorld (probe_completed "2.020000" (Some (2 + 0.02)%float)) None true None
    trimmer_ok no_cancel.

(** The probe gives a duration of one second and a half. *)
Definition short_clip (i : nat) : job_world :=
  mkWorld (probe_completed "1.500000" (Some 1.5%float)) None false None
    trimmer_ok no_cancel.

(** A source folder with two videos, a text file and a directory whose
    name ends in [.mp4], listed in two different orders. *)
Definition videos : Path := of_str "/videos".

Definition listing_1 : list MainWindow.DirEntry :=
  [MainWindow.mkEntry (div videos "b.mp4") true;
   MainWindow.mkEntry (div videos "a.MP4") true;
   MainWindow.mkEntry (div videos "notes.txt") true;
   MainWindow.mkEntry (div videos "old.mp4") false].

Definition listing_2 : list MainWindow.DirEntry :=
  [MainWindow.mkEntry (div videos "a.MP4") true;
   MainWindow.mkEntry (div videos "b.mp4") true;
   MainWindow.mkEntry (div videos "notes.txt") true;
   MainWindow.mkEntry (div videos "old.mp4") false].

Definition empty_window : MainWindow.window := MainWindow.mkWindow [] [].

(** A host with both executables bundled, and one with only [ffmpeg]
    bundled and only [ffprobe] on the search path. *)
Definition bundled_host : Host :=
  mkHost "linux" (fun _ => true) (fun _ => None).

Definition half_host : Host :=
  mkHost "linux"
    (fun p => String.eqb (name p) "ffmpeg")
    (fun exe => if String.eqb exe "ffprobe"
                then Some "/usr/bin/ffprobe" else None).

(** ** Vocabulary of the further properties *)

(** The statuses a trace reports for a row, in the order of emission. *)
Fixpoint row_history (r : nat) (tr : list action) : list string :=
  match tr with
  | [] => []
  | emit (progress r' s _) :: tr' =>
      if (r' =? r)%nat then s :: row_history r tr' else row_history r tr'
  | _ :: tr' => row_history r tr'
  end.

(** Every [Skipped] or [Failed] event of a trace is followed at once by a
    log line that ends with the message of the event. *)
Fixpoint logged_after (tr : list action) : Prop :=
  match tr with
  | [] => True
  | emit (progress _ s m) :: rest =>
      (s = "Skipped" \/ s = "Failed" ->
       exists text rest', rest = emit (log (text ++ m)) :: rest')
      /\ logged_after rest
  | _ :: rest => logged_after rest
  end.


(** [c in s] for a character. *)
Fixpoint contains (c : ascii) (s : string) : bool :=
  match s with
  | EmptyString => false
  | String a s' => Ascii.eqb a c || contains c s'
  end.

(** A part of a path that is not its root: not empty, not a single dot,
    without a separator. *)
Definition part_ok (c : string) : bool :=
  component c && negb (contains "/" c).

(** A relative path of such parts. *)
Definition relative_ok (p : Path) : bool := forallb part_ok p.

(** A path as [Path(s)] makes them: such parts, after a root or not. *)
Definition path_ok (p : Path) : bool :=
  match p with
  | r :: rest =>
      if String.eqb r "/" || String.eqb r "//" then relative_ok rest
      else relative_ok p
  | [] => true
  end.

(** The listings of [source] hold paths below [source]: the children for
    [iterdir], the descendants for [rglob]. *)
Definition child_of (source p : Path) : Prop :=
  exists c, p = (source ++ [c])%list /\ part_ok c = true.

Definition below (source p : Path) : Prop :=
  exists rel, p = (source ++ rel)%list /\ rel <> [] /\ relative_ok rel = true.

Definition well_listed (source : Path) (fs : MainWindow.Source) : Prop :=
  Forall (fun e => child_of source (MainWindow.entry_path e))
    (MainWindow.iterdir fs)
  /\ Forall (fun e => below source (MainWindow.entry_path e))
       (MainWindow.rglob fs).





(** * Properties *)

(** ** Strings and paths *)

Lemma length_append (a b : string) :
  String.length (a ++ b) = String.length a + String.length b.
Proof. induction a as [|c a IH]; simpl; [reflexivity | now rewrite IH]. Qed.

Lemma take_drop (n : nat) (s : string) : PyStr.take n s ++ PyStr.drop n s = s.
Proof.
  revert s; induction n as [|n IH]; intros [|c s]; simpl; try reflexivity.
  now rewrite IH.
Qed.

(** [p.name == p.stem + p.suffix] *)
Lemma name_stem_suffix (p : Path) : name p = stem p ++ suffix p.
Proof.
  unfold stem, suffix.
  destruct ((0 <? PyStr.rfind "." (name p))
            && (PyStr.rfind "." (name p) <? PyStr.len (name p) - 1))%Z.
  - symmetry; apply take_drop.
  - clear; induction (name p) as [|c s IH]; simpl; [reflexivity | now rewrite <- IH].
Qed.

Example format_g_samples :
  map PyFloat.format_g [2; 0.5; 99.99; 0.01; 1e-5; 1234567; 100000]%float
  = ["2"; "0.5"; "99.99"; "0.01"; "1e-05"; "1.23457e+06"; "100000"].
Proof. vm_compute. reflexivity. Qed.

Example format_2f_samples :
  map PyFloat.format_2f [2; 1.5; 0.125; 0.375; 2.675; 59.999]%float
  = ["2.00"; "1.50"; "0.12"; "0.38"; "2.67"; "60.00"].
Proof. vm_compute. reflexivity. Qed.

Example path_samples :
  map (fun s => let p := of_str s in (name p, stem p, suffix p, str (parent p)))
    ["/videos/clip.mp4"; "a/b.tar.gz"; ".bashrc"; "/"]
  = [("clip.mp4", "clip", ".mp4", "/videos");
     ("b.tar.gz", "b.tar", ".gz", "a");
     (".bashrc", ".bashrc", EmptyString, ".");
     (EmptyString, EmptyString, EmptyString, "/")].
Proof. vm_compute. reflexivity. Qed.

Lemma append_grows (a b c : string) :
  String.length b <> 0 -> a ++ b ++ c <> a ++ c.
Proof.
  intros Hb Heq. apply (f_equal String.length) in Heq.
  rewrite !length_append in Heq. lia.
Qed.

(** C3: when [overwrite] is false the output name differs from the input
    file name, whatever the path and the trim offset (positive or not);
    when [overwrite] is true it is the input file name itself. *)
Theorem build_output_name_collision_free (input_path : Path) (trim_seconds : float) :
  build_output_name input_path trim_seconds false <> name input_path
  /\ build_output_name input_path trim_seconds true = name input_path.
Proof.
  split; [|reflexivity].
  unfold build_output_name. rewrite (name_stem_suffix input_path).
  apply append_grows. simpl. discriminate.
Qed.

Lemma build_output_name_collision_free_witness :
  build_output_name (input_path (clip "a")) 2 false <> "a.mp4"
  /\ build_output_name (input_path (clip "a")) 2 true = "a.mp4".
Proof.
  exact (build_output_name_collision_free (input_path (clip "a")) 2).
Defined.

Example build_output_name_samples :
  build_output_name (of_str "/videos/clip.mp4") 2 false = "clip_trim2s.mp4"
  /\ build_output_name (of_str "/videos/clip.MP4") 0.5 false = "clip_trim0.5s.MP4"
  /\ build_output_name (of_str "/videos/clip.mp4") 2 true = "clip.mp4".
Proof. repeat split; vm_compute; reflexivity. Qed.

(** ** The toolchain locator *)

Lemma name_of_child (d : Path) (a b : string) :
  name (d ++ [a; b])%list = b.
Proof.
  unfold name.
  replace (d ++ [a; b])%list with ((d ++ [a]) ++ [b])%list
    by (rewrite <- app_assoc; reflexivity).
  rewrite last_last.
  destruct (has_root _); rewrite length_app, length_app; simpl;
    destruct (Nat.eqb_spec (List.length d + 1 + 1) 1); try lia;
    destruct (Nat.eqb_spec (List.length d + 1 + 1) 0); try lia; reflexivity.
Qed.

Lemma local_tool (h : Host) (app_dir : Path) (exe : string) :
  exe = "ffmpeg" \/ exe = "ffprobe" ->
  (if PyStr.startswith "win" (platform h)
   then with_suffix ".exe" (div (div app_dir "bin") exe)
   else div (div app_dir "bin") exe) = bundled_exe h app_dir exe.
Proof.
  intros Hexe. unfold bundled_exe.
  assert (Hdiv : div (div app_dir "bin") exe = (app_dir ++ ["bin"; exe])%list).
  { destruct Hexe; subst exe; unfold div, joinpath; simpl;
      rewrite <- app_assoc; reflexivity. }
  rewrite Hdiv. destruct (PyStr.startswith "win" (platform h)); [|reflexivity].
  unfold with_suffix, stem. rewrite name_of_child.
  replace (app_dir ++ ["bin"; exe])%list with ((app_dir ++ ["bin"]) ++ [exe])%list
    by (rewrite <- app_assoc; reflexivity).
  rewrite removelast_last, <- app_assoc.
  destruct Hexe; subst exe; reflexivity.
Qed.

Lemma locate_ffmpeg_unfold (h : Host) (app_dir : Path) :
  locate_ffmpeg h app_dir =
  if path_exists h (bundled_exe h app_dir "ffmpeg")
     && path_exists h (bundled_exe h app_dir "ffprobe")
  then Some (mkFfmpegPaths (bundled_exe h app_dir "ffmpeg")
               (bundled_exe h app_dir "ffprobe"))
  else if resolved (which h "ffmpeg") && resolved (which h "ffprobe") then
    match which h "ffmpeg", which h "ffprobe" with
    | Some f, Some p => Some (mkFfmpegPaths (of_str f) (of_str p))
    | _, _ => None
    end
  else None.
Proof.
  unfold locate_ffmpeg.
  rewrite <- (local_tool h app_dir "ffmpeg") by (left; reflexivity).
  rewrite <- (local_tool h app_dir "ffprobe") by (right; reflexivity).
  destruct (PyStr.startswith "win" (platform h)); reflexivity.
Qed.

(** C6: [locate_ffmpeg] returns the bundled pair when both executables
    exist in the bundled directory; otherwise the pair found on the search
    path when both names resolve; otherwise nothing. A pair it returns is
    always one of these two whole pairs. *)
Theorem locate_ffmpeg_never_partial (h : Host) (app_dir : Path) :
  let local_ffmpeg := bundled_exe h app_dir "ffmpeg" in
  let local_ffprobe := bundled_exe h app_dir "ffprobe" in
  let both_bundled := path_exists h local_ffmpeg && path_exists h local_ffprobe in
  (both_bundled = true ->
   locate_ffmpeg h app_dir = Some (mkFfmpegPaths local_ffmpeg local_ffprobe))
  /\ (both_bundled = false ->
      forall f p, which h "ffmpeg" = Some f -> which h "ffprobe" = Some p ->
                  f <> EmptyString -> p <> EmptyString ->
      locate_ffmpeg h app_dir = Some (mkFfmpegPaths (of_str f) (of_str p)))
  /\ (both_bundled = false ->
      resolved (which h "ffmpeg") && resolved (which h "ffprobe") = false ->
      locate_ffmpeg h app_dir = None)
  /\ (forall r, locate_ffmpeg h app_dir = Some r ->
      (both_bundled = true /\ r = mkFfmpegPaths local_ffmpeg local_ffprobe)
      \/ (both_bundled = false /\
          exists f p, which h "ffmpeg" = Some f /\ which h "ffprobe" = Some p
                      /\ f <> EmptyString /\ p <> EmptyString
                      /\ r = mkFfmpegPaths (of_str f) (of_str p))).
Proof.
  intros lm lp both. rewrite locate_ffmpeg_unfold. fold lm lp both.
  repeat split.
  - intros ->. reflexivity.
  - intros -> f p -> -> Hf Hp.
    destruct f; [congruence|]. destruct p; [congruence|]. reflexivity.
  - intros -> ->. reflexivity.
  - intros r. destruct both.
    + intros [= <-]. left. split; reflexivity.
    + destruct (which h "ffmpeg") as [f|], (which h "ffprobe") as [p|];
        simpl; try discriminate.
      * destruct f, p; simpl; try discriminate.
        intros [= <-]. right. split; [reflexivity|].
        eexists _, _. repeat split; discriminate.
      * destruct (PyStr.truthy f); discriminate.
Qed.

Lemma locate_ffmpeg_never_partial_witness :
  path_exists half_host (bundled_exe half_host (of_str "/opt/app") "ffmpeg") = true
  /\ which half_host "ffprobe" = Some "/usr/bin/ffprobe"
  /\ locate_ffmpeg half_host (of_str "/opt/app") = None.
Proof.
  split; [reflexivity|]. split; [reflexivity|].
  destruct (locate_ffmpeg_never_partial half_host (of_str "/opt/app"))
    as [_ [_ [Habsent _]]].
  apply Habsent; reflexivity.
Defined.

Example locate_ffmpeg_samples :
  locate_ffmpeg bundled_host (of_str "/opt/app")
  = Some (mkFfmpegPaths (of_str "/opt/app/bin/ffmpeg")
            (of_str "/opt/app/bin/ffprobe"))
  /\ locate_ffmpeg half_host (of_str "/opt/app") = None.
Proof. split; vm_compute; reflexivity. Qed.

(** ** The order on paths and [list.sort] *)

Lemma ascii_compare_refl (a : ascii) : Ascii.compare a a = Eq.
Proof. unfold Ascii.compare. apply N.compare_refl. Qed.

Lemma ascii_compare_lt_trans (a b c : ascii) :
  Ascii.compare a b = Lt -> Ascii.compare b c = Lt -> Ascii.compare a c = Lt.
Proof.
  unfold Ascii.compare. rewrite !N.compare_lt_iff. apply N.lt_trans.
Qed.

Lemma string_compare_refl (s : string) : String.compare s s = Eq.
Proof.
  induction s as [|c s IH]; simpl; [reflexivity|].
  now rewrite ascii_compare_refl.
Qed.

Lemma string_compare_lt_trans (s1 s2 s3 : string) :
  String.compare s1 s2 = Lt -> String.compare s2 s3 = Lt ->
  String.compare s1 s3 = Lt.
Proof.
  revert s2 s3; induction s1 as [|a s1 IH]; intros [|b s2] [|c s3]; simpl;
    try discriminate; try reflexivity.
  destruct (Ascii.compare a b) eqn:Hab; try discriminate;
    destruct (Ascii.compare b c) eqn:Hbc; try discriminate; intros H1 H2.
  - apply Ascii.compare_eq_iff in Hab, Hbc. subst.
    rewrite ascii_compare_refl. eauto.
  - apply Ascii.compare_eq_iff in Hab. subst. now rewrite Hbc.
  - apply Ascii.compare_eq_iff in Hbc. subst. now rewrite Hab.
  - now rewrite (ascii_compare_lt_trans a b c).
Qed.

Lemma path_compare_refl (p : Path) : PathLib.compare p p = Eq.
Proof.
  induction p as [|a p IH]; simpl; [reflexivity|].
  now rewrite string_compare_refl.
Qed.

Lemma path_compare_eq (p q : Path) : PathLib.compare p q = Eq -> p = q.
Proof.
  revert q; induction p as [|a p IH]; intros [|b q]; simpl;
    try discriminate; try reflexivity.
  destruct (String.compare a b) eqn:Hab; try discriminate.
  apply String.compare_eq_iff in Hab. intros H. f_equal; auto.
Qed.

Lemma path_compare_antisym (p q : Path) :
  PathLib.compare q p = CompOpp (PathLib.compare p q).
Proof.
  revert q; induction p as [|a p IH]; intros [|b q]; simpl; try reflexivity.
  rewrite (String.compare_antisym b a).
  destruct (String.compare a b); simpl; auto.
Qed.

Lemma path_compare_lt_trans (p q r : Path) :
  PathLib.compare p q = Lt -> PathLib.compare q r = Lt ->
  PathLib.compare p r = Lt.
Proof.
  revert q r; induction p as [|a p IH]; intros [|b q] [|c r]; simpl;
    try discriminate; try reflexivity.
  destruct (String.compare a b) eqn:Hab; try discriminate;
    destruct (String.compare b c) eqn:Hbc; try discriminate; intros H1 H2.
  - apply String.compare_eq_iff in Hab, Hbc. subst.
    rewrite string_compare_refl. eauto.
  - apply String.compare_eq_iff in Hab. subst. now rewrite Hbc.
  - apply String.compare_eq_iff in Hbc. subst. now rewrite Hab.
  - now rewrite (string_compare_lt_trans a b c).
Qed.

Lemma path_ltb_asym (p q : Path) :
  PathLib.ltb p q = true -> PathLib.ltb q p = false.
Proof.
  unfold PathLib.ltb. rewrite (path_compare_antisym p q).
  destruct (PathLib.compare p q); simpl; congruence.
Qed.

Lemma path_le_trans (p q r : Path) :
  path_le p q -> path_le q r -> path_le p r.
Proof.
  unfold path_le, PathLib.ltb.
  rewrite (path_compare_antisym p q), (path_compare_antisym q r),
    (path_compare_antisym p r).
  destruct (PathLib.compare p q) eqn:Hpq; simpl; try discriminate;
    destruct (PathLib.compare q r) eqn:Hqr; simpl; try discriminate; intros _ _.
  - apply path_compare_eq in Hpq, Hqr. subst. now rewrite path_compare_refl.
  - apply path_compare_eq in Hpq. subst. now rewrite Hqr.
  - apply path_compare_eq in Hqr. subst. now rewrite Hpq.
  - now rewrite (path_compare_lt_trans p q r).
Qed.

Lemma path_le_antisym (p q : Path) : path_le p q -> path_le q p -> p = q.
Proof.
  unfold path_le, PathLib.ltb. rewrite (path_compare_antisym p q).
  destruct (PathLib.compare p q) eqn:Hpq; simpl; try discriminate.
  intros _ _. now apply path_compare_eq.
Qed.

Section SortFacts.
Variable A : Type.
Variable lt : A -> A -> bool.

Let le (x y : A) : Prop := lt y x = false.

Hypothesis lt_asym : forall a b, lt a b = true -> lt b a = false.
Hypothesis le_trans : forall a b c, le a b -> le b c -> le a c.
Hypothesis le_antisym : forall a b, le a b -> le b a -> a = b.

Lemma insert_perm (x : A) (l : list A) :
  Permutation (x :: l) (PyList.insert lt x l).
Proof.
  induction l as [|y l IH]; simpl; [reflexivity|].
  destruct (lt y x); [|reflexivity].
  rewrite perm_swap. now apply perm_skip.
Qed.

Lemma sort_perm (l : list A) : Permutation l (PyList.sort lt l).
Proof.
  induction l as [|x l IH]; simpl; [constructor|].
  rewrite <- insert_perm. now apply perm_skip.
Qed.

Lemma insert_sorted (x : A) (l : list A) :
  StronglySorted le l -> StronglySorted le (PyList.insert lt x l).
Proof.
  induction 1 as [|y l Hs IH Hy]; simpl.
  - repeat constructor.
  - destruct (lt y x) eqn:Hyx.
    + constructor; [exact IH|].
      apply (Permutation_Forall (insert_perm x l)).
      constructor; [apply lt_asym, Hyx | exact Hy].
    + constructor; [constructor; assumption|].
      constructor; [exact Hyx|].
      eapply Forall_impl; [|exact Hy].
      intros z Hz. apply (le_trans x y z); assumption.
Qed.

Lemma sort_sorted (l : list A) : StronglySorted le (PyList.sort lt l).
Proof.
  induction l as [|x l IH]; simpl; [constructor | now apply insert_sorted].
Qed.

Lemma sorted_perm_eq (l1 l2 : list A) :
  StronglySorted le l1 -> StronglySorted le l2 -> Permutation l1 l2 ->
  l1 = l2.
Proof.
  intros H1; revert l2; induction H1 as [|x l1 Hs1 IH Hx];
    intros l2 H2 Hp.
  - now apply Permutation_nil in Hp.
  - destruct H2 as [|y l2 Hs2 Hy].
    + symmetry in Hp. now apply Permutation_nil in Hp.
    + assert (x = y) as <-.
      { assert (Hin1 : In x (y :: l2))
          by (apply (Permutation_in _ Hp); now left).
        assert (Hin2 : In y (x :: l1))
          by (apply (Permutation_in _ (Permutation_sym Hp)); now left).
        destruct Hin1 as [->|Hin1]; [reflexivity|].
        destruct Hin2 as [->|Hin2]; [reflexivity|].
        rewrite Forall_forall in Hx, Hy.
        apply le_antisym; auto. }
      f_equal. apply IH; [assumption|].
      now apply Permutation_cons_inv in Hp.
Qed.

Lemma sort_perm_invariant (l1 l2 : list A) :
  Permutation l1 l2 -> PyList.sort lt l1 = PyList.sort lt l2.
Proof.
  intros Hp. apply sorted_perm_eq; try apply sort_sorted.
  rewrite <- !sort_perm. exact Hp.
Qed.
End SortFacts.

(** ** The file discoverer *)

Lemma filter_perm {A} (f : A -> bool) (l l' : list A) :
  Permutation l l' -> Permutation (filter f l) (filter f l').
Proof.
  induction 1 as [|x l l' _ IH|x y l|l l' l'' _ IH1 _ IH2]; simpl.
  - constructor.
  - destruct (f x); [now apply perm_skip | exact IH].
  - destruct (f x), (f y); try reflexivity. apply perm_swap.
  - now rewrite IH1.
Qed.

Lemma sort_paths_perm_invariant (l l' : list Path) :
  Permutation l l' -> PyList.sort PathLib.ltb l = PyList.sort PathLib.ltb l'.
Proof.
  apply sort_perm_invariant.
  - exact path_ltb_asym.
  - intros a b c. apply path_le_trans.
  - intros a b. apply path_le_antisym.
Qed.

Lemma sort_paths_sorted (l : list Path) :
  StronglySorted path_le (PyList.sort PathLib.ltb l).
Proof.
  apply sort_sorted.
  - exact path_ltb_asym.
  - intros a b c. apply path_le_trans.
Qed.

(** The extension test ignores case: it holds exactly when the suffix of
    the path, lowered, is [.mp4]. *)
Lemma is_mp4_iff (p : Path) :
  is_mp4 p = true <-> PyStr.lower (suffix p) = ".mp4".
Proof. unfold is_mp4. apply String.eqb_eq. Qed.

(** C8: on an unchanged directory tree (the same entries, in whatever
    order the file system lists them) a second scan leaves the window the
    first scan produced; the files found are the regular files of the
    listing whose suffix is [.mp4] up to case, sorted by path. *)
Theorem scan_files_deterministic (source : Path) (fs fs' : MainWindow.Source)
    (include_subfolders : bool) (win : MainWindow.window) :
  MainWindow.source_exists fs' = MainWindow.source_exists fs ->
  Permutation (MainWindow.iterdir fs) (MainWindow.iterdir fs') ->
  Permutation (MainWindow.rglob fs) (MainWindow.rglob fs') ->
  let first := MainWindow._scan_files source fs include_subfolders win in
  let second := MainWindow._scan_files source fs' include_subfolders first in
  let listing := if include_subfolders
                 then MainWindow.rglob fs else MainWindow.iterdir fs in
  second = first
  /\ (MainWindow.source_exists fs = true ->
      StronglySorted path_le (MainWindow.file_paths first)
      /\ forall p, In p (MainWindow.file_paths first) <->
                   exists e, In e listing /\ MainWindow.entry_path e = p
                             /\ MainWindow.is_file e = true
                             /\ PyStr.lower (suffix p) = ".mp4").
Proof.
  intros Hex Hit Hrg first second listing.
  unfold second, first, MainWindow._scan_files. rewrite Hex.
  destruct (MainWindow.source_exists fs); simpl;
    [|split; [reflexivity | discriminate]].
  - assert (Hfiles :
      PyList.sort PathLib.ltb
        (map MainWindow.entry_path
           (filter (fun e => MainWindow.is_file e && is_mp4 (MainWindow.entry_path e))
              (if include_subfolders then MainWindow.rglob fs'
               else MainWindow.iterdir fs')))
      = PyList.sort PathLib.ltb
          (map MainWindow.entry_path
             (filter (fun e => MainWindow.is_file e && is_mp4 (MainWindow.entry_path e))
                listing))).
    { apply sort_paths_perm_invariant, Permutation_map, filter_perm.
      unfold listing. destruct include_subfolders; now symmetry. }
    split.
    + rewrite Hfiles. reflexivity.
    + intros _. split; [apply sort_paths_sorted|].
      intros p. split.
      * intros Hin.
        apply (Permutation_in _ (Permutation_sym (sort_perm _ _ _))) in Hin.
        apply in_map_iff in Hin. destruct Hin as [e [He Hin]].
        apply filter_In in Hin. destruct Hin as [Hin Hf].
        apply andb_true_iff in Hf. destruct Hf as [Hfile Hmp4].
        apply is_mp4_iff in Hmp4.
        exists e. subst p. auto.
      * intros [e [Hin [He [Hfile Hmp4]]]].
        apply is_mp4_iff in Hmp4.
        apply (Permutation_in _ (sort_perm _ _ _)).
        apply in_map_iff. exists e. split; [exact He|].
        apply filter_In. split; [exact Hin|].
        subst p. now rewrite Hfile, Hmp4.
Qed.

Lemma scan_files_deterministic_witness :
  let fs := MainWindow.mkSource true listing_1 listing_1 in
  let fs' := MainWindow.mkSource true listing_2 listing_2 in
  let first := MainWindow._scan_files videos fs false empty_window in
  MainWindow._scan_files videos fs' false first = first
  /\ MainWindow.file_paths first = [div videos "a.MP4"; div videos "b.mp4"].
Proof.
  intros fs fs' first.
  split; [|vm_compute; reflexivity].
  exact (proj1 (scan_files_deterministic videos fs fs' false empty_window
                  eq_refl (perm_swap _ _ _) (perm_swap _ _ _))).
Defined.

Example is_mp4_samples :
  map (fun s => is_mp4 (of_str s))
    ["/videos/a.mp4"; "/videos/a.MP4"; "/videos/a.Mp4"; "/videos/a.mp4.bak";
     "/videos/.mp4"; "/videos/mp4"]
  = [true; true; true; false; false; false].
Proof. vm_compute. reflexivity. Qed.

(** ** One iteration of the loop *)

Arguments String.append : simpl never.
Arguments PyFloat.format_2f : simpl never.
Arguments PathLib.str : simpl never.
Arguments PathLib.parent : simpl never.
Arguments PyStr.strip : simpl never.
Arguments PyStr.or_else : simpl never.

(** Symbolic execution of one iteration: unfold the steps, then split on
    each answer of the world that a branch of the code inspects. *)
Ltac unfold_iteration :=
  unfold job_trace, job_flow, iteration, _probe_duration, _run_ffmpeg, bind,
    send, act, ret, continue, raise, set_current_process, cancel_arrives,
    cancel.

Ltac case_step :=
  match goal with
  | |- context [match probe ?jw with _ => _ end] =>
      destruct (probe jw) as [? | ? [?|]] eqn:?
  | |- context [PyStr.truthy ?s] => destruct (PyStr.truthy s) eqn:?
  | |- context [PrimFloat.leb ?a ?b] => destruct (PrimFloat.leb a b) eqn:?
  | |- context [match mkdir_error ?jw with _ => _ end] =>
      destruct (mkdir_error jw) eqn:?
  | |- context [if output_exists ?jw && negb (overwrite ?w) then _ else _] =>
      destruct (output_exists jw && negb (overwrite w)) eqn:?
  | |- context [match popen_error ?jw with _ => _ end] =>
      destruct (popen_error jw) eqn:?
  | |- context [match cancel_call ?jw with _ => _ end] =>
      destruct (cancel_call jw) eqn:?
  | |- context [Z.eqb (returncode ?r) 0] =>
      destruct (Z.eqb (returncode r) 0) eqn:?
  end.

Ltac case_world := repeat (simpl; case_step); simpl.

(** Name the trace (and the flow) of the job in the goal, so that the case
    analysis runs on one copy of it. *)
Ltac name_trace :=
  match goal with
  | |- context [job_trace ?w ?jw ?total ?index ?job] =>
      let jt := fresh "jt" in
      let H := fresh "Hjt" in
      remember (job_trace w jw total index job) as jt eqn:H;
      try (match goal with
           | |- context [job_flow w jw total index job] =>
               let jf := fresh "jf" in
               let Hf := fresh "Hjf" in
               remember (job_flow w jw total index job) as jf eqn:Hf;
               revert Hf
           end);
      revert H
  end.

(** Membership in a list that is given element by element. *)
Ltac in_list := simpl; repeat (first [left; reflexivity | right]).
Ltac in_trace := vm_compute; repeat (first [left; reflexivity | right]).

Lemma iteration_result (w : Worker.t) (jw : job_world) (total index : nat)
    (job : FileJob) (st : state) :
  exists st1,
    iteration w jw total index job st
    = (job_trace w jw total index job, st1, job_flow w jw total index job)
    /\ (_cancel st1 = true -> _cancel st = true \/ requested (cancel_call jw) = true)
    /\ (_cancel st = true -> _cancel st1 = true).
Proof.
  unfold_iteration. case_world.
  all: eexists; split; [reflexivity|]; simpl; auto.
Qed.

(** The cases of a hypothesis of membership in such a list. *)
Ltac in_cases :=
  repeat match goal with
         | H : In _ (_ :: _) |- _ => destruct H as [H|H]
         | H : In _ [] |- _ => destruct H
         | H : _ \/ _ |- _ => destruct H as [H|H]
         | H : False |- _ => destruct H
         end.

Lemma job_trace_progress (w : Worker.t) (jw : job_world) (total index : nat)
    (job : FileJob) (r : nat) (s m : string) :
  In (emit (progress r s m)) (job_trace w jw total index job) ->
  r = index - 1 /\ reported s.
Proof.
  unfold_iteration. case_world.
  all: intros H; in_cases; try discriminate.
  all: injection H as <- <- <-; split; [reflexivity|].
  all: unfold reported, completed; auto.
Qed.

Lemma job_trace_signals (w : Worker.t) (jw : job_world) (total index : nat)
    (job : FileJob) :
  ~ In (emit finished) (job_trace w jw total index job)
  /\ forall c n, In (emit (overall c n)) (job_trace w jw total index job) ->
                 c = index /\ n = total.
Proof.
  name_trace. unfold_iteration. case_world.
  all: intros ->; split; [intros H | intros c n H]; in_cases; try discriminate.
  all: injection H as <- <-; split; reflexivity.
Qed.

Lemma job_trace_starts (w : Worker.t) (jw : job_world) (total index : nat)
    (job : FileJob) :
  exists rest,
    job_trace w jw total index job
    = emit (overall index total)
      :: emit (progress (index - 1) "Processing" EmptyString)
      :: run_ffprobe (ffprobe (ffmpeg_paths w)) (input_path job) :: rest.
Proof.
  unfold_iteration. case_world.
  all: eexists; reflexivity.
Qed.

Lemma job_trace_ends (w : Worker.t) (jw : job_world) (total index : nat)
    (job : FileJob) :
  match job_flow w jw total index job with
  | raised _ => last_progress (index - 1) (job_trace w jw total index job)
                = Some "Processing"
  | _ => exists s, last_progress (index - 1) (job_trace w jw total index job)
                   = Some s /\ completed s
  end.
Proof.
  name_trace. unfold_iteration. case_world.
  all: intros -> ->; simpl; rewrite ?Nat.eqb_refl; try reflexivity.
  all: eexists; split; [reflexivity|]; unfold completed; auto.
Qed.

(** ** The loop *)

Lemma late_cancel_result (c : cancel_time) (st : state) :
  (forall a, In a (fst (Worker.late_cancel c st)) -> a = terminate)
  /\ _cancel (snd (Worker.late_cancel c st)) = _cancel st || requested c.
Proof.
  unfold Worker.late_cancel, cancel.
  destruct (requested c); destruct (_cancel st) eqn:Hst; simpl;
    rewrite ?Hst; try (split; [intros a [] | reflexivity]).
  destruct (_current_process st) as [[[rc|]]|]; simpl;
    (split; [intros a H; in_cases; auto | reflexivity]).
Qed.

Lemma loop_canceled (w : Worker.t) (world : nat -> job_world)
    (total index : nat) (job : FileJob) (rest : list FileJob) (st : state) :
  _cancel st = true ->
  loop w world total index (job :: rest) st
  = ([emit (progress (index - 1) "Canceled" "Canceled by user")], st, broke).
Proof. intros H. simpl. now rewrite H. Qed.

(** One turn of the loop on a job that is started: the trace of the job,
    then, unless an exception leaves the loop, what a pending call of
    [cancel] adds and the rest of the loop, entered with the flag set
    exactly when [cancel] was called during the job. *)
Lemma loop_started (w : Worker.t) (world : nat -> job_world)
    (total index : nat) (job : FileJob) (rest : list FileJob) (st : state) :
  _cancel st = false ->
  match job_flow w (world index) total index job with
  | raised exc =>
      exists st1,
        loop w world total index (job :: rest) st
        = (job_trace w (world index) total index job, st1, uncaught exc)
  | _ =>
      exists tr_c st2,
        (forall a, In a tr_c -> a = terminate)
        /\ _cancel st2 = requested (cancel_call (world index))
        /\ loop w world total index (job :: rest) st
           = let '(tr', st3, x) := loop w world total (S index) rest st2 in
             ((job_trace w (world index) total index job ++ tr_c ++ tr')%list,
              st3, x)
  end.
Proof.
  intros Hst. simpl loop. rewrite Hst.
  destruct (iteration_result w (world index) total index job st)
    as [st1 [Hit [Hflag _]]].
  rewrite Hit.
  pose proof (late_cancel_result (cancel_call (world index)) st1) as [Htr Hc].
  destruct (Worker.late_cancel (cancel_call (world index)) st1) as [tr_c st2].
  simpl in Htr, Hc.
  assert (Hst2 : _cancel st2 = requested (cancel_call (world index))).
  { rewrite Hc. destruct (_cancel st1) eqn:H1; [|reflexivity].
    destruct (Hflag eq_refl) as [H|H]; [congruence | now rewrite H]. }
  destruct (job_flow w (world index) total index job).
  - exists tr_c, st2. repeat split; assumption.
  - exists tr_c, st2. repeat split; assumption.
  - exists st1. reflexivity.
Qed.

(** The three ways one turn of the loop can go. *)
Lemma loop_inv (w : Worker.t) (world : nat -> job_world) (total index : nat)
    (job : FileJob) (rest : list FileJob) (st : state)
    (tr : list action) (st' : state) (x : loop_exit) :
  loop w world total index (job :: rest) st = (tr, st', x) ->
  (_cancel st = true
   /\ tr = [emit (progress (index - 1) "Canceled" "Canceled by user")]
   /\ st' = st /\ x = broke)
  \/ (_cancel st = false
      /\ exists exc, job_flow w (world index) total index job = raised exc
                     /\ tr = job_trace w (world index) total index job
                     /\ x = uncaught exc)
  \/ (_cancel st = false
      /\ (forall exc, job_flow w (world index) total index job <> raised exc)
      /\ exists tr_c st2 tr',
           (forall a, In a tr_c -> a = terminate)
           /\ _cancel st2 = requested (cancel_call (world index))
           /\ loop w world total (S index) rest st2 = (tr', st', x)
           /\ tr = (job_trace w (world index) total index job ++ tr_c ++ tr')%list).
Proof.
  intros Hl. destruct (_cancel st) eqn:Hc.
  - rewrite loop_canceled in Hl by assumption.
    injection Hl as <- <- <-. left. auto.
  - right. pose proof (loop_started w world total index job rest st Hc) as Hs.
    destruct (job_flow w (world index) total index job) as [[]| |exc] eqn:Hf.
    + right. destruct Hs as [tr_c [st2 [Htc [Hst2 Hs]]]]. rewrite Hs in Hl.
      destruct (loop w world total (S index) rest st2) as [[tr' st3] x'] eqn:Hrest.
      injection Hl as <- <- <-.
      split; [reflexivity|]. split; [discriminate|].
      exists tr_c, st2, tr'. repeat split; auto.
    + right. destruct Hs as [tr_c [st2 [Htc [Hst2 Hs]]]]. rewrite Hs in Hl.
      destruct (loop w world total (S index) rest st2) as [[tr' st3] x'] eqn:Hrest.
      injection Hl as <- <- <-.
      split; [reflexivity|]. split; [discriminate|].
      exists tr_c, st2, tr'. repeat split; auto.
    + left. destruct Hs as [st1 Hs]. rewrite Hs in Hl.
      injection Hl as <- <- <-. split; [reflexivity|]. exists exc. auto.
Qed.

Ltac loop_cases H :=
  apply loop_inv in H;
  destruct H as [[Hflag [Htr [Hst' Hexit]]]
                | [[Hflag [exc [Hflow [Htr Hexit]]]]
                  | [Hflag [Hflow [tr_c [st2 [tr' [Hterm [Hst2 [Hrest Htr]]]]]]]]]];
  subst.

Lemma loop_rows (w : Worker.t) (world : nat -> job_world) (total : nat)
    (js : list FileJob) :
  forall index st tr st' x r s m,
    1 <= index ->
    loop w world total index js st = (tr, st', x) ->
    In (emit (progress r s m)) tr ->
    index - 1 <= r < index - 1 + List.length js
    /\ (s = "Canceled" \/ reported s).
Proof.
  induction js as [|job rest IH]; intros index st tr st' x r s m Hi Hl Hin.
  - injection Hl as <- _ _. destruct Hin.
  - loop_cases Hl.
    + destruct Hin as [Hin|[]]. injection Hin as <- <- <-.
      simpl. split; [lia | auto].
    + apply job_trace_progress in Hin. destruct Hin as [-> Hs].
      simpl. split; [lia | auto].
    + apply in_app_or in Hin. destruct Hin as [Hin|Hin].
      * apply job_trace_progress in Hin. destruct Hin as [-> Hs].
        simpl. split; [lia | auto].
      * apply in_app_or in Hin. destruct Hin as [Hin|Hin].
        -- apply Hterm in Hin. discriminate.
        -- destruct (IH _ _ _ _ _ _ _ _ (le_S _ _ Hi) Hrest Hin) as [Hr Hs].
           simpl. split; [lia | exact Hs].
Qed.

Lemma loop_signals (w : Worker.t) (world : nat -> job_world) (total : nat)
    (js : list FileJob) :
  forall index st tr st' x,
    loop w world total index js st = (tr, st', x) ->
    ~ In (emit finished) tr.
Proof.
  induction js as [|job rest IH]; intros index st tr st' x Hl Hin.
  - injection Hl as <- _ _. destruct Hin.
  - loop_cases Hl.
    + destruct Hin as [Hin|[]]. discriminate.
    + now apply job_trace_signals in Hin.
    + apply in_app_or in Hin. destruct Hin as [Hin|Hin];
        [now apply job_trace_signals in Hin|].
      apply in_app_or in Hin. destruct Hin as [Hin|Hin].
      * apply Hterm in Hin. discriminate.
      * eapply IH; eassumption.
Qed.

(** ** [Canceled] events *)

Lemma reported_not_canceled (s : string) : reported s -> s <> "Canceled".
Proof. unfold reported, completed. intros [H|[H|[H|H]]]; subst; discriminate. Qed.

Lemma no_canceled_filter (tr : list action) :
  (forall a, In a tr -> is_canceled a = false) -> filter is_canceled tr = [].
Proof.
  induction tr as [|a tr IH]; intros H; simpl; [reflexivity|].
  rewrite (H a) by now left. apply IH. intros b Hb. apply H. now right.
Qed.

Lemma job_trace_not_canceled (w : Worker.t) (jw : job_world)
    (total index : nat) (job : FileJob) (a : action) :
  In a (job_trace w jw total index job) -> is_canceled a = false.
Proof.
  intros Hin. destruct a as [[r s m| | |]| | | |]; try reflexivity.
  apply job_trace_progress in Hin. destruct Hin as [_ Hs].
  apply reported_not_canceled in Hs. simpl. now apply String.eqb_neq.
Qed.

(** The loop emits [Canceled] only when it breaks, as its last action. *)
Lemma loop_canceled_last (w : Worker.t) (world : nat -> job_world)
    (total : nat) (js : list FileJob) :
  forall index st tr st' x,
    loop w world total index js st = (tr, st', x) ->
    match x with
    | broke => exists pre r, tr = (pre ++ [canceled_event r])%list
                             /\ filter is_canceled pre = []
    | _ => filter is_canceled tr = []
    end.
Proof.
  induction js as [|job rest IH]; intros index st tr st' x Hl.
  - injection Hl as <- _ <-. reflexivity.
  - loop_cases Hl.
    + exists [], (index - 1). split; reflexivity.
    + apply no_canceled_filter. intros a. apply job_trace_not_canceled.
    + apply IH in Hrest.
      assert (Hhead : forall tl,
                 filter is_canceled
                   (job_trace w (world index) total index job ++ tr_c ++ tl)
                 = filter is_canceled tl).
      { intros tl. rewrite !filter_app.
        rewrite (no_canceled_filter (job_trace _ _ _ _ _))
          by (intros a; apply job_trace_not_canceled).
        rewrite (no_canceled_filter tr_c); [reflexivity|].
        intros a Ha. now rewrite (Hterm a Ha). }
      destruct x.
      * now rewrite Hhead.
      * destruct Hrest as [pre [r [-> Hpre]]].
        exists (job_trace w (world index) total index job ++ tr_c ++ pre)%list, r.
        split; [now rewrite <- !app_assoc|]. now rewrite Hhead.
      * now rewrite Hhead.
Qed.

(** Without a call of [cancel] the loop does not break. *)
Lemma loop_quiet (w : Worker.t) (world : nat -> job_world) (total : nat)
    (js : list FileJob) :
  forall index st tr st' x,
    _cancel st = false ->
    quiet world index (index + List.length js) ->
    loop w world total index js st = (tr, st', x) ->
    x <> broke.
Proof.
  induction js as [|job rest IH]; intros index st tr st' x Hst Hq Hl.
  - injection Hl as _ _ <-. discriminate.
  - loop_cases Hl; try congruence.
    eapply IH; [| |exact Hrest].
    + rewrite Hst2, (Hq index); [reflexivity|]. simpl. lia.
    + intros n Hn. apply Hq. simpl. lia.
Qed.

(** ** The end of a run *)




(** C10: a run emits at most one [Canceled] event; when it emits one, the
    loop is left at once, so that only the final aggregate progress and
    [finished] follow it; and it emits none when [cancel] is never
    called. *)
Theorem canceled_at_most_once (w : Worker.t) (world : nat -> job_world)
    (st : state) :
  let tr := trace_of w world st in
  let total := List.length (jobs w) in
  List.length (filter is_canceled tr) <= 1
  /\ (filter is_canceled tr <> [] ->
      exists pre r,
        tr = (pre ++ [canceled_event r; emit (overall total total);
                      emit finished])%list
        /\ filter is_canceled pre = [])
  /\ (_cancel st = false -> quiet world 1 (S total) ->
      filter is_canceled tr = []).
Proof.
  intros tr total. unfold tr, trace_of, run. fold total.
  destruct (loop w world total 1 (jobs w) st) as [[tr_l st_l] x] eqn:Hl.
  pose proof (loop_canceled_last _ _ _ _ _ _ _ _ _ Hl) as Hshape.
  pose proof (loop_quiet w world total (jobs w) 1 st tr_l st_l x) as Hquiet.
  destruct x; simpl.
  - rewrite filter_app, Hshape. simpl. repeat split; auto. congruence.
  - destruct Hshape as [pre [r [-> Hpre]]].
    rewrite <- app_assoc, filter_app, Hpre. simpl. repeat split; auto.
    + intros _. exists pre, r. split; [reflexivity | exact Hpre].
    + intros Hst Hq. exfalso. apply (Hquiet Hst); auto.
  - rewrite Hshape. simpl. repeat split; auto. congruence.
Qed.

Lemma canceled_at_most_once_witness :
  filter is_canceled (trace_of three_clips (cancel_during 0 cancel_idle) init) = []
  /\ List.length
       (filter is_canceled
          (trace_of three_clips (cancel_during 1 cancel_idle) init)) <= 1.
Proof.
  split.
  - destruct (canceled_at_most_once three_clips (cancel_during 0 cancel_idle) init)
      as [_ [_ Hnone]].
    apply Hnone; [reflexivity|].
    intros n Hn. destruct n; [lia | reflexivity].
  - exact (proj1 (canceled_at_most_once three_clips
                    (cancel_during 1 cancel_idle) init)).
Defined.

(** ** The table of the main window *)

Lemma last_progress_app (r : nat) (tr1 tr2 : list action) :
  last_progress r (tr1 ++ tr2)
  = match last_progress r tr2 with
    | Some s => Some s
    | None => last_progress r tr1
    end.
Proof.
  induction tr1 as [|a tr1 IH]; simpl.
  - now destruct (last_progress r tr2).
  - rewrite IH. destruct (last_progress r tr2); [reflexivity|].
    reflexivity.
Qed.

Lemma last_progress_none (r : nat) (tr : list action) :
  (forall s m, ~ In (emit (progress r s m)) tr) -> last_progress r tr = None.
Proof.
  induction tr as [|a tr IH]; intros H; simpl; [reflexivity|].
  rewrite IH by (intros s m Hin; apply (H s m); now right).
  destruct a as [[r' s m| | |]| | | |]; try reflexivity.
  destruct (Nat.eqb_spec r' r); [|reflexivity].
  subst r'. exfalso. apply (H s m). now left.
Qed.

Lemma last_progress_in (r : nat) (tr : list action) (s : string) :
  last_progress r tr = Some s -> exists m, In (emit (progress r s m)) tr.
Proof.
  induction tr as [|a tr IH]; simpl; [discriminate|].
  destruct (last_progress r tr) as [s'|].
  - intros [= ->]. destruct (IH eq_refl) as [m Hm]. exists m. now right.
  - destruct a as [[r' s' m| | |]| | | |]; try discriminate.
    destruct (Nat.eqb_spec r' r); [|discriminate].
    intros [= ->]. subst r'. exists m. now left.
Qed.

Lemma setItem_length (tbl : list MainWindow.row) (r : nat) (s m : string) :
  List.length (MainWindow.setItem tbl r s m) = List.length tbl.
Proof.
  revert r; induction tbl as [|x tbl IH]; intros [|r]; simpl; auto.
Qed.

Lemma handle_length (tbl : list MainWindow.row) (a : action) :
  List.length (MainWindow.handle tbl a) = List.length tbl.
Proof.
  destruct a as [[r s m| | |]| | | |]; try reflexivity.
  simpl. unfold MainWindow._update_progress.
  destruct (r <? List.length tbl)%nat; [apply setItem_length | reflexivity].
Qed.

Lemma setItem_status (tbl : list MainWindow.row) (r r' : nat) (s m : string) :
  r < List.length tbl ->
  MainWindow.status_of (MainWindow.setItem tbl r s m) r'
  = if (r =? r')%nat then Some s else MainWindow.status_of tbl r'.
Proof.
  unfold MainWindow.status_of.
  revert r r'; induction tbl as [|x tbl IH]; intros [|r] [|r'] Hr; simpl in *;
    try lia; try reflexivity.
  apply IH. lia.
Qed.

(** The status a row shows after the signals of a trace is the last one the
    trace reports for it, if the table has the row and the trace reports
    one; otherwise it is the status the row had. *)
Lemma deliver_status (tr : list action) :
  forall (tbl : list MainWindow.row) (r : nat),
    MainWindow.status_of (MainWindow.deliver tbl tr) r
    = match last_progress r tr with
      | Some s => if (r <? List.length tbl)%nat then Some s else None
      | None => MainWindow.status_of tbl r
      end.
Proof.
  unfold MainWindow.deliver.
  induction tr as [|a tr IH]; intros tbl r; simpl; [reflexivity|].
  rewrite IH, handle_length.
  destruct (last_progress r tr) as [s|]; [reflexivity|].
  destruct a as [[r' s m| | |]| | | |]; try reflexivity.
  simpl. unfold MainWindow._update_progress.
  destruct (Nat.ltb_spec r' (List.length tbl)) as [Hlt|Hge].
  - rewrite setItem_status by assumption.
    destruct (Nat.eqb_spec r' r) as [->|]; [|reflexivity].
    apply Nat.ltb_lt in Hlt. now rewrite Hlt.
  - destruct (Nat.eqb_spec r' r) as [->|]; [|reflexivity].
    apply Nat.ltb_ge in Hge. rewrite Hge.
    unfold MainWindow.status_of.
    apply Nat.ltb_ge in Hge.
    now rewrite (proj2 (nth_error_None tbl r) Hge).
Qed.

Lemma fresh_table_status (w : Worker.t) (r : nat) :
  r < List.length (jobs w) ->
  MainWindow.status_of (fresh_table w) r = Some "Pending".
Proof.
  unfold MainWindow.status_of, fresh_table. intros Hr.
  destruct (nth_error (jobs w) r) as [job|] eqn:Hn.
  - now rewrite (map_nth_error _ _ _ Hn).
  - apply nth_error_None in Hn. lia.
Qed.

Lemma fresh_table_length (w : Worker.t) :
  List.length (fresh_table w) = List.length (jobs w).
Proof. unfold fresh_table. apply length_map. Qed.

(** ** A job that the loop starts *)

(** When the trace of the loop reports [Processing] for the job of index
    [k], it contains the trace of that job; nothing before it concerns the
    row of the job, and after it the loop goes on with the jobs that follow,
    unless an exception left the job. *)
Lemma loop_reaches (w : Worker.t) (world : nat -> job_world) (total : nat)
    (js : list FileJob) :
  forall index st tr st' x k,
    1 <= index -> 1 <= k ->
    loop w world total index js st = (tr, st', x) ->
    In (emit (progress (k - 1) "Processing" EmptyString)) tr ->
    exists job pre post,
      index <= k /\ nth_error js (k - index) = Some job
      /\ tr = (pre ++ job_trace w (world k) total k job ++ post)%list
      /\ (forall s m, ~ In (emit (progress (k - 1) s m)) pre)
      /\ match job_flow w (world k) total k job with
         | raised exc => post = [] /\ x = uncaught exc
         | _ =>
             exists tr_c st2 tr',
               post = (tr_c ++ tr')%list
               /\ (forall a, In a tr_c -> a = terminate)
               /\ _cancel st2 = requested (cancel_call (world k))
               /\ loop w world total (S k) (skipn (S (k - index)) js) st2
                  = (tr', st', x)
         end.
Proof.
  induction js as [|job rest IH]; intros index st tr st' x k Hi Hk Hl Hin.
  - injection Hl as <- _ _. destruct Hin.
  - assert (Hhere : forall s m,
               In (emit (progress (k - 1) s m))
                  (job_trace w (world index) total index job) -> k = index).
    { intros s m H. apply job_trace_progress in H. lia. }
    loop_cases Hl.
    + destruct Hin as [Hin|[]]. discriminate.
    + apply Hhere in Hin. subst k.
      exists job, [], []. rewrite Nat.sub_diag, Hflow, app_nil_r.
      repeat split; auto.
    + apply in_app_or in Hin. destruct Hin as [Hin|Hin].
      * apply Hhere in Hin. subst k.
        exists job, [], (tr_c ++ tr')%list. rewrite Nat.sub_diag.
        repeat split; auto.
        destruct (job_flow w (world index) total index job) as [[]| |exc] eqn:Hf;
          [| |now elim (Hflow exc)];
          exists tr_c, st2, tr'; repeat split; auto.
      * apply in_app_or in Hin. destruct Hin as [Hin|Hin];
          [apply Hterm in Hin; discriminate|].
        destruct (IH _ _ _ _ _ _ (le_S _ _ Hi) Hk Hrest Hin)
          as [job' [pre [post [Hle [Hnth [-> [Hpre Hpost]]]]]]].
        exists job', (job_trace w (world index) total index job ++ tr_c ++ pre)%list,
          post.
        replace (k - index) with (S (k - S index)) by lia.
        repeat split.
        -- lia.
        -- exact Hnth.
        -- now rewrite <- !app_assoc.
        -- intros s m H. apply in_app_or in H. destruct H as [H|H].
           ++ apply Hhere in H. lia.
           ++ apply in_app_or in H. destruct H as [H|H].
              ** apply Hterm in H. discriminate.
              ** now apply (Hpre s m).
        -- exact Hpost.
Qed.

(** ** Cancellation during a job *)

Lemma last_progress_terminate (r : nat) (tr_c : list action) :
  (forall a, In a tr_c -> a = terminate) -> last_progress r tr_c = None.
Proof.
  intros H. apply last_progress_none. intros s m Hin.
  apply H in Hin. discriminate.
Qed.

Lemma last_progress_turn (r : nat) (jt tr_c tr' : list action) :
  (forall a, In a tr_c -> a = terminate) ->
  last_progress r (jt ++ tr_c ++ tr')
  = match last_progress r tr' with
    | Some s => Some s
    | None => last_progress r jt
    end.
Proof.
  intros H. rewrite !last_progress_app, (last_progress_terminate r tr_c H).
  now destruct (last_progress r tr').
Qed.

Lemma last_progress_other_job (w : Worker.t) (jw : job_world)
    (total index : nat) (job : FileJob) (r : nat) :
  r <> index - 1 -> last_progress r (job_trace w jw total index job) = None.
Proof.
  intros Hr. apply last_progress_none. intros s m Hin.
  apply job_trace_progress in Hin. lia.
Qed.

Lemma last_progress_before_loop (w : Worker.t) (world : nat -> job_world)
    (total index : nat) (js : list FileJob) (st : state)
    (tr : list action) (st' : state) (x : loop_exit) (r : nat) :
  1 <= index ->
  loop w world total index js st = (tr, st', x) ->
  r < index - 1 \/ index - 1 + List.length js <= r ->
  last_progress r tr = None.
Proof.
  intros Hi Hl Hr. apply last_progress_none. intros s m Hin.
  pose proof (loop_rows _ _ _ _ _ _ _ _ _ _ _ _ Hi Hl Hin). lia.
Qed.

Lemma completed_job (w : Worker.t) (jw : job_world) (total index : nat)
    (job : FileJob) :
  (forall exc, job_flow w jw total index job <> raised exc) ->
  exists s, last_progress (index - 1) (job_trace w jw total index job) = Some s
            /\ completed s.
Proof.
  intros Hflow. pose proof (job_trace_ends w jw total index job) as H.
  destruct (job_flow w jw total index job) as [[]| |exc]; auto.
  now elim (Hflow exc).
Qed.

(** The loop, entered with the flag down, when [cancel] is first called
    during the job of index [k] and no exception leaves the loop: the jobs
    up to [k] are completed, the job after [k], if there is one, is
    reported [Canceled], and nothing is reported for the jobs after it. *)
Lemma loop_cancel_statuses (w : Worker.t) (world : nat -> job_world)
    (total : nat) (js : list FileJob) :
  forall index st tr st' x k,
    1 <= index -> _cancel st = false ->
    index <= k < index + List.length js ->
    quiet world index k ->
    requested (cancel_call (world k)) = true ->
    loop w world total index js st = (tr, st', x) ->
    (forall exc, x <> uncaught exc) ->
    (forall i, index <= i <= k ->
               exists s, last_progress (i - 1) tr = Some s /\ completed s)
    /\ (S k < index + List.length js -> last_progress k tr = Some "Canceled")
    /\ (forall r, k < r -> last_progress r tr = None)
    /\ (forall r m, In (emit (progress r "Canceled" m)) tr ->
                    r = k /\ S k < index + List.length js).
Proof.
  induction js as [|job rest IH];
    intros index st tr st' x k Hi Hst Hk Hq Hreq Hl Hx; simpl in Hk; [lia|].
  loop_cases Hl; [congruence | now elim (Hx exc) |].
  pose proof (completed_job w (world index) total index job Hflow)
    as [s0 [Hs0 Hc0]].
  assert (Hnc : forall r m,
             ~ In (emit (progress r "Canceled" m))
                  (job_trace w (world index) total index job)).
  { intros r m H. apply job_trace_progress in H. destruct H as [_ H].
    now apply reported_not_canceled in H. }
  destruct (Nat.eq_dec index k) as [->|Hne].
  - (* [cancel] is called during this job *)
    rewrite Hreq in Hst2.
    assert (Htr' : tr' = match rest with
                         | [] => []
                         | _ :: _ => [canceled_event k]
                         end).
    { destruct rest as [|job2 rest2].
      - now injection Hrest as <- _ _.
      - rewrite loop_canceled in Hrest by assumption.
        injection Hrest as <- _ _. simpl. now rewrite Nat.sub_0_r. }
    repeat split.
    + intros i Hik. assert (i = k) as -> by lia.
      exists s0. split; [|exact Hc0].
      rewrite last_progress_turn by assumption.
      rewrite (last_progress_before_loop _ _ _ _ _ _ _ _ _ (k - 1)
                 (le_S _ _ Hi) Hrest) by (simpl; lia).
      exact Hs0.
    + intros Hlen. rewrite last_progress_turn by assumption.
      destruct rest as [|job2 rest2]; [simpl in Hlen; lia|].
      subst tr'. simpl. now rewrite Nat.eqb_refl.
    + intros r Hr. rewrite last_progress_turn by assumption.
      rewrite last_progress_other_job by lia.
      destruct rest as [|job2 rest2]; subst tr'; simpl; [reflexivity|].
      destruct (Nat.eqb_spec k r); [lia | reflexivity].
    + apply in_app_or in H. destruct H as [H|H]; [now apply Hnc in H|].
      apply in_app_or in H. destruct H as [H|H];
        [apply Hterm in H; discriminate|].
      destruct rest as [|job2 rest2]; subst tr'; [destruct H|].
      destruct H as [H|[]]. now injection H as <- _.
    + apply in_app_or in H. destruct H as [H|H]; [now apply Hnc in H|].
      apply in_app_or in H. destruct H as [H|H];
        [apply Hterm in H; discriminate|].
      destruct rest as [|job2 rest2]; subst tr'; [destruct H|].
      simpl. lia.
  - (* [cancel] is called during a later job *)
    rewrite (Hq index) in Hst2 by lia. simpl in Hst2.
    assert (Hq' : quiet world (S index) k) by (intros n Hn; apply Hq; lia).
    destruct (IH (S index) st2 tr' st' x k (le_S _ _ Hi) Hst2
                ltac:(lia) Hq' Hreq Hrest Hx) as [Hdone [Hcan [Hafter Honly]]].
    repeat split.
    + intros i Hik. rewrite last_progress_turn by assumption.
      destruct (Nat.eq_dec i index) as [->|Hi'].
      * rewrite (last_progress_before_loop _ _ _ _ _ _ _ _ _ (index - 1)
                   (le_S _ _ Hi) Hrest) by (simpl; lia).
        exists s0. auto.
      * destruct (Hdone i ltac:(lia)) as [s [Hs Hc]].
        rewrite Hs. exists s. auto.
    + intros Hlen. rewrite last_progress_turn by assumption.
      rewrite Hcan by (simpl in Hlen |- *; lia). reflexivity.
    + intros r Hr. rewrite last_progress_turn by assumption.
      rewrite (Hafter r Hr). apply last_progress_other_job. lia.
    + apply in_app_or in H. destruct H as [H|H]; [now apply Hnc in H|].
      apply in_app_or in H. destruct H as [H|H];
        [apply Hterm in H; discriminate|].
      now apply Honly in H.
    + apply in_app_or in H. destruct H as [H|H]; [now apply Hnc in H|].
      apply in_app_or in H. destruct H as [H|H];
        [apply Hterm in H; discriminate|].
      apply Honly in H. simpl. lia.
Qed.

(** When [cancel] is called while the first of three jobs is processed,
    the first job is completed, the second, which was never started, is
    reported [Canceled], and only the third keeps its [Pending]. *)
Lemma cancel_marks_next_job_canceled :
  requested (cancel_call (cancel_during 1 cancel_idle 1)) = true
  /\ trace_of three_clips (cancel_during 1 cancel_idle) init
     = [emit (overall 1 3);
        emit (progress 0 "Processing" EmptyString);
        run_ffprobe (ffprobe toolchain) (input_path (clip "a"));
        mkdir (parent (output_path (clip "a")));
        trimmer_call three_clips (clip "a");
        emit (progress 0 "Done" EmptyString);
        emit (progress 1 "Canceled" "Canceled by user");
        emit (overall 3 3);
        emit finished]
  /\ map MainWindow.status
       (MainWindow.deliver (fresh_table three_clips)
          (trace_of three_clips (cancel_during 1 cancel_idle) init))
     = ["Done"; "Canceled"; "Pending"].
Proof. repeat split; vm_compute; reflexivity. Qed.

Lemma last_progress_final (r : nat) (tr : list action) (c n : nat) :
  last_progress r (tr ++ [emit (overall c n); emit finished]) = last_progress r tr.
Proof. rewrite last_progress_app. reflexivity. Qed.

(** C1, amended: in a run that returns, entered with the flag down, in
    which [cancel] is first called while job [k] is processed, the jobs
    [1..k] end [Skipped], [Failed] or [Done]; the job [k+1], if there is
    one, is marked [Canceled] although it was never started; the jobs from
    [k+2] on stay [Pending]; and [Canceled] is emitted for no other row
    than that of job [k+1]. *)
Theorem cancel_stops_after_current_job (w : Worker.t)
    (world : nat -> job_world) (st : state) (k : nat) :
  _cancel st = false ->
  1 <= k <= List.length (jobs w) ->
  quiet world 1 k ->
  requested (cancel_call (world k)) = true ->
  outcome_of w world st = returned ->
  let tr := trace_of w world st in
  let final := MainWindow.deliver (fresh_table w) tr in
  (forall i, 1 <= i <= k ->
             exists s, MainWindow.status_of final (i - 1) = Some s /\ completed s)
  /\ (k < List.length (jobs w) -> MainWindow.status_of final k = Some "Canceled")
  /\ (forall i, k + 1 < i <= List.length (jobs w) ->
                MainWindow.status_of final (i - 1) = Some "Pending")
  /\ (forall r m, In (emit (progress r "Canceled" m)) tr ->
                  r = k /\ k < List.length (jobs w)).
Proof.
  intros Hst Hk Hq Hreq Hout tr final. unfold final, tr.
  unfold outcome_of, trace_of, run in *.
  destruct (loop w world (List.length (jobs w)) 1 (jobs w) st)
    as [[tr_l st_l] x] eqn:Hl.
  assert (Hx : forall exc, x <> uncaught exc)
    by (intros exc ->; discriminate Hout).
  assert (Htr : fst (fst (match x with
                           | uncaught exc => (tr_l, st_l, exception exc)
                           | _ => ((tr_l ++ [emit (overall (List.length (jobs w))
                                                     (List.length (jobs w)));
                                             emit finished])%list, st_l, returned)
                           end))
                = (tr_l ++ [emit (overall (List.length (jobs w))
                                    (List.length (jobs w)));
                            emit finished])%list).
  { destruct x; try reflexivity. now elim (Hx exc). }
  rewrite Htr. clear Htr.
  destruct (loop_cancel_statuses w world _ (jobs w) 1 st tr_l st_l x k
              (le_n 1) Hst ltac:(lia) Hq Hreq Hl Hx)
    as [Hdone [Hcan [Hafter Honly]]].
  repeat split.
  - intros i Hi. destruct (Hdone i Hi) as [s [Hs Hc]]. exists s.
    split; [|exact Hc].
    rewrite deliver_status, last_progress_final, Hs, fresh_table_length.
    destruct (Nat.ltb_spec (i - 1) (List.length (jobs w))); [reflexivity | lia].
  - intros Hlt.
    rewrite deliver_status, last_progress_final, Hcan, fresh_table_length by lia.
    destruct (Nat.ltb_spec k (List.length (jobs w))); [reflexivity | lia].
  - intros i Hi.
    rewrite deliver_status, last_progress_final, Hafter by lia.
    apply fresh_table_status. lia.
  - apply in_app_or in H. destruct H as [H|H].
    + now apply Honly in H.
    + simpl in H. in_cases; discriminate.
  - apply in_app_or in H. destruct H as [H|H].
    + apply Honly in H. lia.
    + simpl in H. in_cases; discriminate.
Qed.

Lemma cancel_stops_after_current_job_witness :
  let w := three_clips in
  let world := cancel_during 2 cancel_in_flight in
  let final := MainWindow.deliver (fresh_table w) (trace_of w world init) in
  (forall i, 1 <= i <= 2 ->
             exists s, MainWindow.status_of final (i - 1) = Some s /\ completed s)
  /\ (2 < List.length (jobs w) -> MainWindow.status_of final 2 = Some "Canceled")
  /\ (forall i, 2 + 1 < i <= List.length (jobs w) ->
                MainWindow.status_of final (i - 1) = Some "Pending")
  /\ (forall r m, In (emit (progress r "Canceled" m)) (trace_of w world init) ->
                  r = 2 /\ 2 < List.length (jobs w)).
Proof.
  apply (cancel_stops_after_current_job three_clips
           (cancel_during 2 cancel_in_flight) init 2).
  - reflexivity.
  - simpl. lia.
  - intros n Hn. assert (n = 1) as -> by lia. reflexivity.
  - reflexivity.
  - vm_compute. reflexivity.
Defined.

(** ** The trace of a job inside the trace of a run *)

(** The check of the flag before a job: it is reported [Canceled] when the
    flag is up, and started otherwise. *)
Lemma loop_next_job (w : Worker.t) (world : nat -> job_world)
    (total k : nat) (job : FileJob) (rest : list FileJob) (st : state)
    (tr : list action) (st' : state) (x : loop_exit) :
  loop w world total (S k) (job :: rest) st = (tr, st', x) ->
  if _cancel st then In (canceled_event k) tr
  else In (emit (progress k "Processing" EmptyString)) tr.
Proof.
  intros Hl.
  pose proof (job_trace_starts w (world (S k)) total (S k) job) as [tl Hjt].
  simpl in Hjt. rewrite Nat.sub_0_r in Hjt.
  loop_cases Hl; rewrite Hflag.
  - simpl. rewrite Nat.sub_0_r. now left.
  - rewrite Hjt. simpl. auto.
  - rewrite Hjt. simpl. auto.
Qed.

Lemma skipn_cons {A} (l : list A) (k : nat) :
  k < List.length l -> exists a rest, skipn k l = a :: rest.
Proof.
  revert k; induction l as [|a l IH]; intros [|k] Hk; simpl in *; try lia.
  - eauto.
  - apply IH. lia.
Qed.

(** A job that a run starts: its trace is a segment of the trace of the
    run, nothing else in the run reports anything for its row, and unless an
    exception leaves the job the run goes on to the check of the flag for
    the next job, if there is one. *)
Lemma run_reaches (w : Worker.t) (world : nat -> job_world) (st : state)
    (k : nat) :
  1 <= k ->
  In (emit (progress (k - 1) "Processing" EmptyString)) (trace_of w world st) ->
  exists job pre post,
    nth_error (jobs w) (k - 1) = Some job
    /\ trace_of w world st
       = (pre ++ job_trace w (world k) (List.length (jobs w)) k job ++ post)%list
    /\ (forall s m, ~ In (emit (progress (k - 1) s m)) pre)
    /\ (forall s m, ~ In (emit (progress (k - 1) s m)) post)
    /\ ((forall exc, job_flow w (world k) (List.length (jobs w)) k job
                     <> raised exc) ->
        k < List.length (jobs w) ->
        if requested (cancel_call (world k)) then In (canceled_event k) post
        else In (emit (progress k "Processing" EmptyString)) post).
Proof.
  intros Hk Hin. unfold trace_of, run in *.
  set (total := List.length (jobs w)) in *.
  destruct (loop w world total 1 (jobs w) st) as [[tr_l st_l] x] eqn:Hl.
  set (tail := match x with
               | uncaught _ => []
               | _ => [emit (overall total total); emit finished]
               end).
  assert (Htr : fst (fst (match x with
                           | uncaught exc => (tr_l, st_l, exception exc)
                           | _ => ((tr_l ++ [emit (overall total total);
                                             emit finished])%list, st_l, returned)
                           end)) = (tr_l ++ tail)%list).
  { unfold tail. destruct x; simpl; try reflexivity. now rewrite app_nil_r. }
  rewrite Htr in *. clear Htr.
  assert (Htail : forall r s m, ~ In (emit (progress r s m)) tail).
  { intros r s m H. unfold tail in H. destruct x; simpl in H; in_cases; discriminate. }
  apply in_app_or in Hin. destruct Hin as [Hin|Hin]; [|now apply Htail in Hin].
  destruct (loop_reaches w world total (jobs w) 1 st tr_l st_l x k
              (le_n 1) Hk Hl Hin)
    as [job [pre [post [_ [Hnth [-> [Hpre Hpost]]]]]]].
  exists job, pre, (post ++ tail)%list.
  split; [exact Hnth|]. split; [now rewrite <- !app_assoc|].
  split; [exact Hpre|].
  destruct (job_flow w (world k) total k job) as [[]| |exc] eqn:Hf.
  3: { destruct Hpost as [-> ->]. split.
       - intros s m H. simpl in H. destruct H.
       - intros H. now elim (H exc). }
  all: destruct Hpost as [tr_c [st2 [tr' [-> [Hterm [Hst2 Hrest]]]]]].
  all: split;
    [ intros s m H; apply in_app_or in H; destruct H as [H|H];
      [ apply in_app_or in H; destruct H as [H|H];
        [ apply Hterm in H; discriminate
        | pose proof (loop_rows _ _ _ _ _ _ _ _ _ _ _ _
                        (le_n_S _ _ (Nat.le_0_l k)) Hrest H); simpl in *; lia ]
      | now apply Htail in H ]
    | intros _ Hlt;
      replace (S (k - 1)) with k in Hrest by lia;
      destruct (skipn_cons (jobs w) k Hlt) as [job2 [rest2 Hsk]];
      rewrite Hsk in Hrest; apply loop_next_job in Hrest;
      rewrite Hst2 in Hrest;
      destruct (requested (cancel_call (world k)));
      apply in_or_app; left; apply in_or_app; right; exact Hrest ].
Qed.

(** ** A trimmer that exits with a nonzero code *)

(** Cases ruled out by a return code that is not zero. *)
Ltac absurd_case :=
  try discriminate;
  try match goal with
      | H : (?a =? 0)%Z = true, N : ?a <> 0%Z |- _ =>
          apply Z.eqb_eq in H; contradiction
      end.






(** ** A trimmer terminated by [cancel] *)



(** ** A probe that gives no duration *)

(** Cases ruled out by what is known of the stripped output. *)
Ltac contradict_truthy :=
  try match goal with
      | H : PyStr.strip ?s = EmptyString, T : PyStr.truthy (PyStr.strip ?s) = true |- _ =>
          rewrite H in T; discriminate T
      | H : PyStr.strip ?s <> EmptyString, T : PyStr.truthy (PyStr.strip ?s) = false |- _ =>
          destruct (PyStr.strip s); [now elim H | discriminate T]
      end.


(** ** A probe that gives a duration *)

Lemma short_message_head (d t : float) :
  exists s, short_message d t = String "D" s.
Proof. unfold short_message. unfold String.append at 1. eexists. reflexivity. Qed.

Lemma short_message_distinct (d t : float) :
  short_message d t <> "Output exists and overwrite is disabled".
Proof.
  destruct (short_message_head d t) as [s ->]. discriminate.
Qed.

Lemma job_probe_gave (w : Worker.t) (jw : job_world) (total index : nat)
    (job : FileJob) (d : float) :
  probe_gave jw d ->
  let t := trim_seconds w in
  let jt := job_trace w jw total index job in
  ((d <=? t + 0.01)%float = true ->
   jt = [emit (overall index total);
         emit (progress (index - 1) "Processing" EmptyString);
         run_ffprobe (ffprobe (ffmpeg_paths w)) (input_path job);
         emit (progress (index - 1) "Skipped" (short_message d t));
         emit (log ("Skipping " ++ str (input_path job) ++ ": "
                    ++ short_message d t))])
  /\ ((d <=? t + 0.01)%float = false ->
      In (mkdir (parent (output_path job))) jt
      /\ (mkdir_error jw = None ->
          (In (trimmer_call w job) jt
           <-> output_exists jw && negb (overwrite w) = false))
      /\ (forall m, In (emit (progress (index - 1) "Skipped" m)) jt ->
                    m = "Output exists and overwrite is disabled")).
Proof.
  intros [out [Hp Hout]] t jt. unfold jt, t. clear jt t. revert Hp Hout.
  name_trace. unfold_iteration. unfold trimmer_call, short_message.
  intros Hjt Hp Hout. revert Hjt. rewrite Hp.
  case_world.
  all: intros ->; contradict_truthy.
  all: split; intros Hle; try discriminate Hle; try reflexivity.
  all: repeat split; try (intros; in_cases; absurd_case).
  all: try solve [in_list].
  all: try reflexivity.
  all: try (injection H as <-; reflexivity).
Qed.




(** ** The boundary of the duration check *)

Lemma boundaries_from_spec (fuel : nat) :
  forall lo n,
    boundaries_from fuel lo = true ->
    (lo <= n < lo + Z.of_nat fuel)%Z ->
    boundary_ok (spin_value n) = true.
Proof.
  induction fuel as [|fuel IH]; intros lo n Hb Hn; [lia|].
  cbn [boundaries_from] in Hb. apply andb_true_iff in Hb.
  destruct Hb as [Hlo Hrest].
  destruct (Z.eq_dec n lo) as [->|Hne]; [exact Hlo|].
  apply (IH (lo + 1)%Z); [exact Hrest | lia].
Qed.

Lemma spin_boundaries_checked : boundaries_from (Z.to_nat 9999) 1 = true.
Proof. vm_compute. reflexivity. Qed.

Lemma spin_boundaries (n : Z) :
  (1 <= n <= 9999)%Z ->
  let t := spin_value n in
  (t <=? t + 0.01)%float = true /\ (t + 0.02 <=? t + 0.01)%float = false.
Proof.
  intros Hn t.
  assert (H : boundary_ok t = true).
  { apply (boundaries_from_spec (Z.to_nat 9999) 1 n spin_boundaries_checked).
    rewrite Z2Nat.id; lia. }
  unfold boundary_ok in H. apply andb_true_iff in H. destruct H as [H1 H2].
  split; [exact H1|]. now apply negb_true_iff in H2.
Qed.

(** The margin of 0.01 seconds is absorbed by rounding at offsets far
    above those of the spin box: at [2^53] seconds the offset plus 0.02 is
    the offset itself. *)
Example margin_absorbed_at_huge_offsets :
  let t := 9007199254740992%float in
  (t + 0.02 <=? t + 0.01)%float = true.
Proof. vm_compute. reflexivity. Qed.

(** With a probed duration of the offset plus 0.02 seconds and an output
    file that is already there, the job passes the duration check and is
    skipped at the check of the output: the trimmer is not invoked. *)
Lemma long_enough_then_output_exists :
  probe_gave (long_enough_stale_output 1) (trim_seconds one_clip + 0.02)%float
  /\ trace_of one_clip long_enough_stale_output init
     = [emit (overall 1 1);
        emit (progress 0 "Processing" EmptyString);
        run_ffprobe (ffprobe toolchain) (input_path (clip "a"));
        mkdir (parent (output_path (clip "a")));
        emit (progress 0 "Skipped" "Output exists and overwrite is disabled");
        emit (log "Skipping /videos/trimmed/a_trim2s.mp4: Output exists and overwrite is disabled");
        emit (overall 1 1);
        emit finished]
  /\ ~ In (trimmer_call one_clip (clip "a"))
          (trace_of one_clip long_enough_stale_output init).
Proof.
  split; [eexists; split; [reflexivity | vm_compute; discriminate]|].
  split; [vm_compute; reflexivity|].
  vm_compute. intros H. in_cases; discriminate.
Qed.

(** C2, amended: for a started job whose probe gives the duration [d], the
    job is skipped with the message that cites [d] and the offset, without
    any call of the trimmer, exactly when [d <= trim_seconds + 0.01] in
    binary64 arithmetic. Otherwise the run goes on to create the output
    directory, and, if that does not raise, invokes the trimmer exactly
    when the check of the output does not skip the job. For every offset
    [t] of the spin box, [d = t] is skipped and [d = t + 0.02] passes the
    duration check. *)
Theorem short_duration_skip (w : Worker.t) (world : nat -> job_world)
    (st : state) (k : nat) (job : FileJob) (d : float) :
  1 <= k ->
  In (emit (progress (k - 1) "Processing" EmptyString)) (trace_of w world st) ->
  nth_error (jobs w) (k - 1) = Some job ->
  probe_gave (world k) d ->
  let t := trim_seconds w in
  let total := List.length (jobs w) in
  let jt := job_trace w (world k) total k job in
  let skipped :=
    [emit (overall k total);
     emit (progress (k - 1) "Processing" EmptyString);
     run_ffprobe (ffprobe (ffmpeg_paths w)) (input_path job);
     emit (progress (k - 1) "Skipped" (short_message d t));
     emit (log ("Skipping " ++ str (input_path job) ++ ": "
                ++ short_message d t))] in
  (exists pre post, trace_of w world st = (pre ++ jt ++ post)%list)
  /\ (jt = skipped <-> (d <=? t + 0.01)%float = true)
  /\ (In (emit (progress (k - 1) "Skipped" (short_message d t))) jt
      <-> (d <=? t + 0.01)%float = true)
  /\ ((d <=? t + 0.01)%float = false ->
      In (mkdir (parent (output_path job))) jt
      /\ (mkdir_error (world k) = None ->
          (In (trimmer_call w job) jt
           <-> output_exists (world k) && negb (overwrite w) = false)))
  /\ (forall n, (1 <= n <= 9999)%Z -> t = spin_value n ->
                (d = t -> jt = skipped)
                /\ (d = (t + 0.02)%float -> (d <=? t + 0.01)%float = false)).
Proof.
  intros Hk Hstart Hjob Hprobe t total jt skipped.
  destruct (run_reaches w world st k Hk Hstart)
    as [job' [pre [post [Hjob' [Htr _]]]]].
  assert (job' = job) as -> by congruence.
  destruct (job_probe_gave w (world k) total k job d Hprobe) as [Hshort Hlong].
  fold t jt skipped in Hshort, Hlong.
  split; [exists pre, post; exact Htr|].
  assert (Hiff : In (emit (progress (k - 1) "Skipped" (short_message d t))) jt
                 <-> (d <=? t + 0.01)%float = true).
  { split.
    - intros Hin. destruct (d <=? t + 0.01)%float eqn:Hle; [reflexivity|].
      destruct (Hlong eq_refl) as [_ [_ Honly]].
      apply Honly in Hin. now apply short_message_distinct in Hin.
    - intros Hle. rewrite (Hshort Hle). unfold skipped. simpl. auto. }
  split; [|split; [exact Hiff|split]].
  - split; [|exact Hshort].
    intros Heq. apply Hiff. rewrite Heq. unfold skipped. simpl. auto.
  - intros Hle. destruct (Hlong Hle) as [Hmk [Htrim _]]. split; assumption.
  - intros n Hn Ht.
    destruct (spin_boundaries n Hn) as [H1 H2]. rewrite <- Ht in H1, H2.
    split; intros ->; [now apply Hshort | exact H2].
Qed.

Lemma short_duration_skip_witness :
  probe_gave (short_clip 1) 1.5%float
  /\ In (emit (progress 0 "Skipped"
                 "Duration 1.50s is shorter than trim 2.00s"))
        (job_trace one_clip (short_clip 1) 1 1 (clip "a")).
Proof.
  assert (Hgave : probe_gave (short_clip 1) 1.5%float)
    by (eexists; split; [reflexivity | vm_compute; discriminate]).
  split; [exact Hgave|].
  destruct (short_duration_skip one_clip short_clip init 1 (clip "a") 1.5%float
              ltac:(lia) ltac:(in_trace) eq_refl Hgave)
    as [_ [_ [Hskip _]]].
  apply Hskip. reflexivity.
Defined.

(** * Further properties *)

(** ** Every action of the loop belongs to a job *)

Lemma loop_action_inv (w : Worker.t) (world : nat -> job_world) (total : nat)
    (js : list FileJob) :
  forall index st tr st' x a,
    loop w world total index js st = (tr, st', x) ->
    In a tr ->
    a = terminate
    \/ (exists r, a = canceled_event r)
    \/ exists k job pre post,
         index <= k /\ nth_error js (k - index) = Some job
         /\ In a (job_trace w (world k) total k job)
         /\ tr = (pre ++ job_trace w (world k) total k job ++ post)%list.
Proof.
  induction js as [|job rest IH]; intros index st tr st' x a Hl Hin.
  - injection Hl as <- _ _. destruct Hin.
  - loop_cases Hl.
    + destruct Hin as [<-|[]]. right. left. eexists. reflexivity.
    + right. right. exists index, job, [], []. rewrite Nat.sub_diag.
      now rewrite app_nil_r.
    + apply in_app_or in Hin. destruct Hin as [Hin|Hin].
      * right. right. exists index, job, [], (tr_c ++ tr')%list.
        rewrite Nat.sub_diag. auto.
      * apply in_app_or in Hin. destruct Hin as [Hin|Hin]; [left; auto|].
        destruct (IH _ _ _ _ _ _ Hrest Hin)
          as [H|[H|[k [job' [pre [post [Hk [Hn [Hj Htr]]]]]]]]]; auto.
        right. right.
        exists k, job',
          (job_trace w (world index) total index job ++ tr_c ++ pre)%list,
          post.
        replace (k - index) with (S (k - S index)) by lia.
        repeat split; [lia | exact Hn | exact Hj |].
        rewrite Htr, <- !app_assoc. reflexivity.
Qed.

Lemma run_action_inv (w : Worker.t) (world : nat -> job_world) (st : state)
    (a : action) :
  In a (trace_of w world st) ->
  a = terminate
  \/ (exists r, a = canceled_event r)
  \/ a = emit (overall (List.length (jobs w)) (List.length (jobs w)))
  \/ a = emit finished
  \/ exists k job pre post,
       1 <= k /\ nth_error (jobs w) (k - 1) = Some job
       /\ In a (job_trace w (world k) (List.length (jobs w)) k job)
       /\ trace_of w world st
          = (pre ++ job_trace w (world k) (List.length (jobs w)) k job
             ++ post)%list.
Proof.
  unfold trace_of, run.
  destruct (loop w world (List.length (jobs w)) 1 (jobs w) st)
    as [[tr st'] x] eqn:Hl.
  intros Hin.
  assert (Hcases : In a tr
                   \/ a = emit (overall (List.length (jobs w)) (List.length (jobs w)))
                   \/ a = emit finished).
  { destruct x; simpl in Hin; auto;
      apply in_app_or in Hin; destruct Hin as [Hin|Hin]; auto;
      simpl in Hin; in_cases; auto. }
  destruct Hcases as [H|[H|H]]; auto.
  destruct (loop_action_inv _ _ _ _ _ _ _ _ _ _ Hl H)
    as [H'|[H'|[k [job [pre [post [Hk [Hn [Hj Htr]]]]]]]]]; auto.
  right. right. right. right.
  destruct x; simpl.
  - exists k, job, pre,
      (post ++ [emit (overall (List.length (jobs w)) (List.length (jobs w)));
                emit finished])%list.
    repeat split; auto. rewrite Htr, <- !app_assoc. reflexivity.
  - exists k, job, pre,
      (post ++ [emit (overall (List.length (jobs w)) (List.length (jobs w)));
                emit finished])%list.
    repeat split; auto. rewrite Htr, <- !app_assoc. reflexivity.
  - exists k, job, pre, post. auto.
Qed.

(** ** Rows and counts stay in range *)

(** X1: every [progress] event of a run names a row of the job list, and
    every [overall] event carries the length of the list as its total and a
    count between one and that total (or zero of zero for an empty list);
    so on a table with one row per job the guard of [_update_progress]
    always passes. *)
Theorem signals_stay_in_range (w : Worker.t) (world : nat -> job_world)
    (st : state) :
  let tr := trace_of w world st in
  let total := List.length (jobs w) in
  (forall r s m, In (emit (progress r s m)) tr -> r < total)
  /\ (forall c n, In (emit (overall c n)) tr ->
                  n = total /\ c <= total /\ (1 <= c \/ total = 0))
  /\ (forall tbl r s m, List.length tbl = total ->
                        In (emit (progress r s m)) tr ->
                        MainWindow._update_progress tbl r s m
                        = MainWindow.setItem tbl r s m).
Proof.
  cbv zeta.
  assert (Hrow : forall r s m, In (emit (progress r s m)) (trace_of w world st)
                               -> r < List.length (jobs w)).
  { intros r s m Hin.
    destruct (run_action_inv w world st _ Hin)
      as [H|[[r' H]|[H|[H|[k [job [pre [post [Hk [Hn [Hj _]]]]]]]]]]];
      try discriminate.
    - unfold trace_of, run in Hin.
      destruct (loop w world (List.length (jobs w)) 1 (jobs w) st)
        as [[tr_l st_l] x] eqn:Hl.
      assert (Hin' : In (emit (progress r s m)) tr_l).
      { destruct x; simpl in Hin; auto;
          apply in_app_or in Hin; destruct Hin as [Hin|Hin]; auto;
          simpl in Hin; in_cases; discriminate. }
      pose proof (loop_rows _ _ _ _ _ _ _ _ _ _ _ _ (le_n 1) Hl Hin'). lia.
    - apply job_trace_progress in Hj. destruct Hj as [-> _].
      assert (k - 1 < List.length (jobs w))
        by (apply nth_error_Some; congruence).
      lia. }
  split; [exact Hrow|]. split.
  - intros c n Hin.
    destruct (run_action_inv w world st _ Hin)
      as [H|[[r' H]|[H|[H|[k [job [pre [post [Hk [Hn [Hj _]]]]]]]]]]];
      try discriminate.
    + injection H as -> ->. repeat split; lia.
    + apply job_trace_signals in Hj. destruct Hj as [-> ->].
      assert (k - 1 < List.length (jobs w))
        by (apply nth_error_Some; congruence).
      repeat split; lia.
  - intros tbl r s m Hlen Hin. unfold MainWindow._update_progress.
    apply Hrow in Hin. rewrite Hlen.
    destruct (Nat.ltb_spec r (List.length (jobs w))); [reflexivity | lia].
Qed.

(** ** The history of a row *)

Lemma row_history_app (r : nat) (a b : list action) :
  row_history r (a ++ b) = (row_history r a ++ row_history r b)%list.
Proof.
  induction a as [|[[r' s m| | |]| | | |] a IH]; simpl; auto.
  destruct (r' =? r)%nat; simpl; now rewrite IH.
Qed.

Lemma row_history_none (r : nat) (tr : list action) :
  (forall s m, ~ In (emit (progress r s m)) tr) -> row_history r tr = [].
Proof.
  induction tr as [|[[r' s m| | |]| | | |] tr IH]; simpl; intros H; auto;
    try (apply IH; intros s' m' Hin; apply (H s' m'); auto).
  destruct (Nat.eqb_spec r' r) as [->|Hne].
  - exfalso. apply (H s m). auto.
  - apply IH. intros s' m' Hin. apply (H s' m'). auto.
Qed.

Lemma row_history_terminate (r : nat) (tr : list action) :
  (forall a, In a tr -> a = terminate) -> row_history r tr = [].
Proof.
  intros H. apply row_history_none. intros s m Hin.
  apply H in Hin. discriminate.
Qed.

Lemma job_row_history (w : Worker.t) (jw : job_world) (total index : nat)
    (job : FileJob) :
  match job_flow w jw total index job with
  | raised _ => row_history (index - 1) (job_trace w jw total index job)
                = ["Processing"]
  | _ => exists s, row_history (index - 1) (job_trace w jw total index job)
                   = ["Processing"; s] /\ completed s
  end.
Proof.
  name_trace. unfold_iteration. case_world.
  all: intros -> ->; simpl; rewrite ?Nat.eqb_refl; try reflexivity.
  all: eexists; split; [reflexivity|]; unfold completed; auto.
Qed.

Lemma job_row_history_other (w : Worker.t) (jw : job_world)
    (total index : nat) (job : FileJob) (r : nat) :
  r <> index - 1 -> row_history r (job_trace w jw total index job) = [].
Proof.
  intros Hne. apply row_history_none. intros s m Hin.
  apply job_trace_progress in Hin. destruct Hin as [-> _]. now apply Hne.
Qed.

Lemma loop_row_history_before (w : Worker.t) (world : nat -> job_world)
    (total index : nat) (js : list FileJob) (st : state) (tr : list action)
    (st' : state) (x : loop_exit) (r : nat) :
  1 <= index ->
  loop w world total index js st = (tr, st', x) ->
  r < index - 1 -> row_history r tr = [].
Proof.
  intros Hi Hl Hr. apply row_history_none. intros s m Hin.
  pose proof (loop_rows _ _ _ _ _ _ _ _ _ _ _ _ Hi Hl Hin). lia.
Qed.

Lemma loop_row_history (w : Worker.t) (world : nat -> job_world) (total : nat)
    (js : list FileJob) :
  forall index st tr st' x r,
    1 <= index ->
    loop w world total index js st = (tr, st', x) ->
    row_history r tr = []
    \/ (row_history r tr = ["Canceled"] /\ x = broke)
    \/ (row_history r tr = ["Processing"] /\ exists exc, x = uncaught exc)
    \/ exists s, row_history r tr = ["Processing"; s] /\ completed s.
Proof.
  induction js as [|job rest IH]; intros index st tr st' x r Hi Hl.
  - injection Hl as <- _ _. auto.
  - loop_cases Hl.
    + simpl. destruct (index - 1 =? r)%nat; auto.
    + destruct (Nat.eq_dec r (index - 1)) as [->|Hne].
      * pose proof (job_row_history w (world index) total index job) as Hh.
        rewrite Hflow in Hh. right. right. left. eauto.
      * left. now apply job_row_history_other.
    + rewrite !row_history_app, (row_history_terminate r tr_c Hterm).
      destruct (Nat.eq_dec r (index - 1)) as [->|Hne].
      * rewrite (loop_row_history_before _ _ _ _ _ _ _ _ _ (index - 1)
                   (le_S _ _ Hi) Hrest) by lia.
        pose proof (job_row_history w (world index) total index job) as Hh.
        destruct (job_flow w (world index) total index job) as [[]| |exc];
          [| |now destruct (Hflow exc)];
          destruct Hh as [s [-> Hs]]; right; right; right; exists s; auto.
      * rewrite job_row_history_other by assumption. simpl.
        apply (IH (S index) st2 tr' st' x r); [lia | exact Hrest].
Qed.

Lemma trace_of_history (w : Worker.t) (world : nat -> job_world) (st : state)
    (r : nat) :
  row_history r (trace_of w world st)
  = row_history r
      (fst (fst (loop w world (List.length (jobs w)) 1 (jobs w) st))).
Proof.
  unfold trace_of, run.
  destruct (loop w world (List.length (jobs w)) 1 (jobs w) st)
    as [[tr st'] x].
  destruct x; simpl; rewrite ?row_history_app; simpl;
    now rewrite ?app_nil_r.
Qed.

(** X2: during one run a row is reported at most twice, and only along one
    of four histories: nothing (the job was never reached), [Canceled]
    alone, [Processing] alone (only when an exception ends the run), or
    [Processing] followed by one of [Done], [Skipped] and [Failed]. A
    final status is never replaced. *)
Theorem row_history_shapes (w : Worker.t) (world : nat -> job_world)
    (st : state) (r : nat) :
  let h := row_history r (trace_of w world st) in
  h = []
  \/ h = ["Canceled"]
  \/ (h = ["Processing"] /\ exists exc, outcome_of w world st = exception exc)
  \/ exists s, h = ["Processing"; s] /\ completed s.
Proof.
  cbv zeta. rewrite trace_of_history. unfold outcome_of, run.
  destruct (loop w world (List.length (jobs w)) 1 (jobs w) st)
    as [[tr st'] x] eqn:Hl.
  destruct (loop_row_history _ _ _ _ _ _ _ _ _ r (le_n 1) Hl)
    as [H|[[H _]|[[H [exc ->]]|H]]]; simpl; auto.
  right. right. left. eauto.
Qed.

(** ** Jobs are taken in the order of the list *)

Lemma loop_in_order (w : Worker.t) (world : nat -> job_world) (total : nat)
    (js : list FileJob) :
  forall index st tr st' x r s m r',
    1 <= index ->
    loop w world total index js st = (tr, st', x) ->
    In (emit (progress r s m)) tr ->
    index - 1 <= r' < r ->
    exists s', row_history r' tr = ["Processing"; s'] /\ completed s'.
Proof.
  induction js as [|job rest IH];
    intros index st tr st' x r s m r' Hi Hl Hin Hr.
  - injection Hl as <- _ _. destruct Hin.
  - loop_cases Hl.
    + destruct Hin as [Hin|[]]. injection Hin as <- _ _. lia.
    + apply job_trace_progress in Hin. lia.
    + apply in_app_or in Hin. destruct Hin as [Hin|Hin];
        [apply job_trace_progress in Hin; lia|].
      apply in_app_or in Hin. destruct Hin as [Hin|Hin];
        [apply Hterm in Hin; discriminate|].
      rewrite !row_history_app, (row_history_terminate r' tr_c Hterm).
      destruct (Nat.eq_dec r' (index - 1)) as [->|Hne].
      * rewrite (loop_row_history_before _ _ _ _ _ _ _ _ _ (index - 1)
                   (le_S _ _ Hi) Hrest) by lia.
        pose proof (job_row_history w (world index) total index job) as Hh.
        destruct (job_flow w (world index) total index job) as [[]| |exc];
          [| |now destruct (Hflow exc)];
          destruct Hh as [s' [-> Hs]]; exists s'; auto.
      * rewrite job_row_history_other by assumption. simpl.
        apply (IH (S index) st2 tr' st' x r s m r'); auto; lia.
Qed.

(** X3: jobs are taken in the order of the list and none is left behind:
    when a run reports anything for a row, every earlier row has by then
    gone through [Processing] to one of [Done], [Skipped] and [Failed]. *)
Theorem rows_complete_in_order (w : Worker.t) (world : nat -> job_world)
    (st : state) (r : nat) (s m : string) (r' : nat) :
  In (emit (progress r s m)) (trace_of w world st) ->
  r' < r ->
  exists s', row_history r' (trace_of w world st) = ["Processing"; s']
             /\ completed s'.
Proof.
  intros Hin Hr. rewrite trace_of_history.
  unfold trace_of, run in Hin.
  destruct (loop w world (List.length (jobs w)) 1 (jobs w) st)
    as [[tr st'] x] eqn:Hl.
  assert (Hin' : In (emit (progress r s m)) tr).
  { destruct x; simpl in Hin; auto;
      apply in_app_or in Hin; destruct Hin as [Hin|Hin]; auto;
      simpl in Hin; in_cases; discriminate. }
  simpl. apply (loop_in_order _ _ _ _ _ _ _ _ _ _ _ _ _ (le_n 1) Hl Hin').
  lia.
Qed.

Lemma rows_complete_in_order_witness :
  let world := cancel_during 2 cancel_idle in
  In (emit (progress 2 "Canceled" "Canceled by user"))
    (trace_of three_clips world init)
  /\ row_history 1 (trace_of three_clips world init) = ["Processing"; "Done"]
  /\ row_history 2 (trace_of three_clips world init) = ["Canceled"].
Proof.
  intros world.
  assert (Hin : In (emit (progress 2 "Canceled" "Canceled by user"))
                  (trace_of three_clips world init)) by in_trace.
  split; [exact Hin|].
  destruct (rows_complete_in_order three_clips world init 2 _ _ 1 Hin
              (le_n 2)) as [s' [H _]].
  split; vm_compute; reflexivity.
Defined.

(** ** When the trimmer is started *)

Lemma job_trimmer_guarded (w : Worker.t) (jw : job_world) (total index : nat)
    (job : FileJob) (exe : Path) (flag : string) (ss : float) (i o : Path) :
  In (popen_ffmpeg exe flag ss i o) (job_trace w jw total index job) ->
  popen_ffmpeg exe flag ss i o = trimmer_call w job
  /\ mkdir_error jw = None
  /\ output_exists jw && negb (overwrite w) = false
  /\ (forall d, probe_gave jw d ->
                (d <=? trim_seconds w + 0.01)%float = false)
  /\ exists pre post,
       job_trace w jw total index job
       = (pre ++ mkdir (parent (output_path job)) :: trimmer_call w job
              :: post)%list.
Proof.
  name_trace. unfold_iteration. unfold trimmer_call. case_world.
  all: intros -> Hin; in_cases; try discriminate.
  all: split; [symmetry; exact Hin|];
    split; [first [reflexivity | assumption]|];
    split; [first [reflexivity | assumption]|].
  all: split;
    [ intros d' [out' [Hp Hne]];
      match goal with
      | H : probe _ = _ |- _ =>
          rewrite Hp in H; try discriminate H;
          injection H as ? ?; subst
      end;
      contradict_truthy; try discriminate; assumption
    | first [ (eexists [_; _; _], _; reflexivity)
            | (eexists [_; _; _; _], _; reflexivity)
            | (eexists [_; _; _; _; _], _; reflexivity) ] ].
Qed.

(** X4: the trimmer is started only for a job of the list, on the paths of
    that job, with the located executable, the offset of the worker and the
    flag [-n] unless overwriting is on; only right after the directory of
    the output was created; never when overwriting is off and the output
    exists; and never when the probe gave a duration at or below the
    threshold of the duration check. *)
Theorem trimmer_started_only_when_safe (w : Worker.t)
    (world : nat -> job_world) (st : state)
    (exe : Path) (flag : string) (ss : float) (i o : Path) :
  In (popen_ffmpeg exe flag ss i o) (trace_of w world st) ->
  exists k job,
    1 <= k /\ nth_error (jobs w) (k - 1) = Some job
    /\ exe = ffmpeg (ffmpeg_paths w)
    /\ flag = (if overwrite w then "-y" else "-n")
    /\ ss = trim_seconds w
    /\ i = input_path job /\ o = output_path job
    /\ (overwrite w = false -> output_exists (world k) = false)
    /\ (forall d, probe_gave (world k) d ->
                  (d <=? trim_seconds w + 0.01)%float = false)
    /\ exists pre post,
         trace_of w world st
         = (pre ++ mkdir (parent o) :: popen_ffmpeg exe flag ss i o
                :: post)%list.
Proof.
  intros Hin.
  destruct (run_action_inv w world st _ Hin)
    as [H|[[r' H]|[H|[H|[k [job [pre [post [Hk [Hn [Hj Htr]]]]]]]]]]];
    try discriminate.
  destruct (job_trimmer_guarded _ _ _ _ _ _ _ _ _ _ Hj)
    as [Hcall [_ [Hout [Hdur [pre' [post' Hjt]]]]]].
  exists k, job. unfold trimmer_call in Hcall.
  injection Hcall as -> -> -> -> ->.
  repeat split; auto.
  - intros Hov. rewrite Hov, andb_true_r in Hout. exact Hout.
  - exists (pre ++ pre')%list, (post' ++ post)%list.
    rewrite Htr, Hjt. unfold trimmer_call.
    rewrite <- !app_assoc. reflexivity.
Qed.

Lemma trimmer_started_only_when_safe_witness :
  let c := clip "b" in
  In (popen_ffmpeg (ffmpeg toolchain) "-n" 2 (input_path c) (output_path c))
    (trace_of three_clips second_fails init)
  /\ output_exists (second_fails 2) = false.
Proof.
  intros c.
  assert (Hin : In (popen_ffmpeg (ffmpeg toolchain) "-n" 2 (input_path c)
                      (output_path c))
                  (trace_of three_clips second_fails init)) by in_trace.
  split; [exact Hin|].
  destruct (trimmer_started_only_when_safe _ _ _ _ _ _ _ _ Hin)
    as [k [job _]].
  reflexivity.
Defined.

(** ** Every skip and every failure is explained in the log *)

Lemma string_append_assoc (a b c : string) :
  ((a ++ b) ++ c = a ++ b ++ c)%string.
Proof.
  induction a as [|ch a IH]; [reflexivity|].
  change (String ch ((a ++ b) ++ c) = String ch (a ++ b ++ c))%string.
  now rewrite IH.
Qed.

Lemma log_ends_with (a b c m : string) (rest : list action) :
  exists text rest',
    emit (log (a ++ b ++ c ++ m)) :: rest = emit (log (text ++ m)) :: rest'.
Proof.
  exists (a ++ b ++ c)%string, rest. now rewrite !string_append_assoc.
Qed.

Lemma logged_after_app (a b : list action) :
  logged_after a -> logged_after b -> logged_after (a ++ b).
Proof.
  induction a as [|[[r s m| | |]| | | |] a IH]; simpl; auto.
  intros [Hnext Ha] Hb. split; [|auto].
  intros Hs. destruct (Hnext Hs) as [text [rest' ->]].
  exists text, (rest' ++ b)%list. reflexivity.
Qed.

Lemma logged_after_terminate (tr : list action) :
  (forall a, In a tr -> a = terminate) -> logged_after tr.
Proof.
  induction tr as [|a tr IH]; simpl; [auto|].
  intros H. rewrite (H a (or_introl eq_refl)). apply IH.
  intros a' Hin. apply H. now right.
Qed.

Lemma job_logged_after (w : Worker.t) (jw : job_world) (total index : nat)
    (job : FileJob) :
  logged_after (job_trace w jw total index job).
Proof.
  unfold_iteration. case_world.
  all: repeat split; intros [H|H]; try discriminate H.
  all: apply log_ends_with.
Qed.

Lemma loop_logged_after (w : Worker.t) (world : nat -> job_world)
    (total : nat) (js : list FileJob) :
  forall index st tr st' x,
    loop w world total index js st = (tr, st', x) -> logged_after tr.
Proof.
  induction js as [|job rest IH]; intros index st tr st' x Hl.
  - injection Hl as <- _ _. exact I.
  - loop_cases Hl.
    + simpl. split; [intros [H|H]; discriminate H | exact I].
    + apply job_logged_after.
    + apply logged_after_app; [apply job_logged_after|].
      apply logged_after_app; [now apply logged_after_terminate|].
      exact (IH _ _ _ _ _ Hrest).
Qed.

(** X5: in every run, each [Skipped] and each [Failed] event is followed at
    once by a log line that ends with the message of the event: no job is
    skipped or fails without its reason in the log. *)
Theorem skips_and_failures_are_logged (w : Worker.t)
    (world : nat -> job_world) (st : state) :
  logged_after (trace_of w world st).
Proof.
  unfold trace_of, run.
  destruct (loop w world (List.length (jobs w)) 1 (jobs w) st)
    as [[tr st'] x] eqn:Hl.
  pose proof (loop_logged_after _ _ _ _ _ _ _ _ _ Hl) as H.
  destruct x; simpl; auto; apply logged_after_app; simpl; auto.
Qed.

(** ** Paths and their text *)

Lemma contains_append (c : ascii) (a b : string) :
  contains c (a ++ b) = contains c a || contains c b.
Proof.
  induction a as [|x a IH]; [reflexivity|].
  change (contains c (String x (a ++ b))
          = contains c (String x a) || contains c b).
  simpl. rewrite IH. now rewrite orb_assoc.
Qed.

Lemma split_without (c : ascii) (s : string) :
  contains c s = false -> PyStr.split c s = [s].
Proof.
  induction s as [|a s IH]; simpl; [reflexivity|].
  intros H. apply orb_false_iff in H. destruct H as [Ha Hs].
  rewrite Ha, (IH Hs). reflexivity.
Qed.

Lemma split_append (c : ascii) (a b : string) :
  contains c a = false ->
  PyStr.split c (a ++ String c b) = a :: PyStr.split c b.
Proof.
  induction a as [|x a IH]; intros H.
  - change (PyStr.split c (String c b) = EmptyString :: PyStr.split c b).
    simpl. now rewrite Ascii.eqb_refl.
  - simpl in H. apply orb_false_iff in H. destruct H as [Hx Ha].
    change (PyStr.split c (String x (a ++ String c b))
            = String x a :: PyStr.split c b).
    simpl. rewrite Hx, (IH Ha). reflexivity.
Qed.

Lemma split_parts (c : ascii) (s : string) :
  Forall (fun p => contains c p = false) (PyStr.split c s).
Proof.
  induction s as [|a s IH]; simpl.
  - repeat constructor.
  - destruct (Ascii.eqb a c) eqn:Ha.
    + constructor; [reflexivity | exact IH].
    + destruct (PyStr.split c s) as [|w ws].
      * repeat constructor. simpl. now rewrite Ha.
      * inversion IH; subst. constructor; [|assumption].
        simpl. rewrite Ha. assumption.
Qed.

Lemma split_join (parts : list string) :
  parts <> [] ->
  Forall (fun p => contains "/" p = false) parts ->
  PyStr.split "/" (PyStr.join "/" parts) = parts.
Proof.
  induction parts as [|p rest IH]; intros Hne Hall; [now elim Hne|].
  inversion Hall as [|? ? Hp Hrest]; subst.
  destruct rest as [|q rest].
  - simpl. now apply split_without.
  - change (PyStr.join "/" (p :: q :: rest))
      with (p ++ String "/" (PyStr.join "/" (q :: rest))).
    rewrite split_append by assumption.
    rewrite IH; [reflexivity | discriminate | assumption].
Qed.

Lemma part_ok_parts (c : string) :
  part_ok c = true ->
  component c = true /\ contains "/" c = false
  /\ exists a s, c = String a s /\ Ascii.eqb a "/" = false.
Proof.
  unfold part_ok. intros H. apply andb_true_iff in H. destruct H as [Hc Hs].
  apply negb_true_iff in Hs. repeat split; auto.
  destruct c as [|a s]; [discriminate Hc|].
  exists a, s. split; [reflexivity|].
  simpl in Hs. now apply orb_false_iff in Hs.
Qed.

Lemma prefix_slash (p : string) (a : ascii) (s : string) :
  Ascii.eqb a "/" = false ->
  PyStr.startswith (String "/" p) (String a s) = false.
Proof.
  intros Ha. unfold PyStr.startswith. cbn [String.prefix].
  destruct (ascii_dec "/" a) as [<-|]; [discriminate Ha | reflexivity].
Qed.

Lemma root_of_relative (a : ascii) (s : string) :
  Ascii.eqb a "/" = false -> root_of (String a s) = [].
Proof.
  intros Ha. unfold root_of. now rewrite !prefix_slash.
Qed.

Lemma relative_ok_parts (p : Path) :
  relative_ok p = true ->
  filter component p = p /\ Forall (fun c => contains "/" c = false) p.
Proof.
  induction p as [|c p IH]; simpl; [auto|].
  intros H. apply andb_true_iff in H. destruct H as [Hc Hp].
  destruct (part_ok_parts c Hc) as [Hcomp [Hs _]].
  destruct (IH Hp) as [Hf Hall]. rewrite Hcomp, Hf. auto.
Qed.

Lemma join_head (a : ascii) (s : string) (rest : list string) :
  exists s', PyStr.join "/" (String a s :: rest) = String a s'.
Proof.
  destruct rest as [|q rest]; simpl; eexists; reflexivity.
Qed.

Lemma has_root_relative (c : string) (p : Path) :
  part_ok c = true -> has_root (c :: p) = false.
Proof.
  intros H. destruct (part_ok_parts c H) as [_ [_ [a [s [-> Ha]]]]].
  simpl. now apply prefix_slash.
Qed.

(** [Path(str(p)) == p] for a relative path. *)
Lemma of_str_str_relative (p : Path) :
  relative_ok p = true -> of_str (str p) = p.
Proof.
  destruct p as [|c p]; [reflexivity|].
  intros H. unfold str. rewrite has_root_relative
    by (simpl in H; now apply andb_true_iff in H).
  destruct (relative_ok_parts _ H) as [Hf Hall].
  pose proof H as H'. simpl in H'. apply andb_true_iff in H'.
  destruct H' as [Hc _].
  destruct (part_ok_parts c Hc) as [_ [_ [a [s [-> Ha]]]]].
  unfold of_str. rewrite split_join by (auto; discriminate).
  destruct (join_head a s p) as [s' ->].
  rewrite root_of_relative by assumption. exact Hf.
Qed.

Lemma of_str_part (c : string) : part_ok c = true -> of_str c = [c].
Proof.
  intros H. pose proof (of_str_str_relative [c]) as Hr.
  unfold str in Hr. rewrite (has_root_relative c [] H) in Hr.
  apply Hr. simpl. now rewrite H.
Qed.

Lemma div_part (p : Path) (c : string) :
  part_ok c = true -> div p c = (p ++ [c])%list.
Proof.
  intros H. unfold div, joinpath. rewrite (of_str_part c H).
  now rewrite has_root_relative.
Qed.

Lemma joinpath_relative (p q : Path) :
  relative_ok q = true -> joinpath p q = (p ++ q)%list.
Proof.
  unfold joinpath. destruct q as [|c q]; [reflexivity|].
  intros H. simpl in H. apply andb_true_iff in H. destruct H as [Hc _].
  now rewrite has_root_relative.
Qed.

Lemma name_snoc (p : Path) (c : string) :
  part_ok c = true -> name (p ++ [c])%list = c.
Proof.
  intros H. unfold name. rewrite last_last, length_app.
  destruct p as [|r p].
  - change ([] ++ [c])%list with [c].
    rewrite (has_root_relative c [] H). reflexivity.
  - simpl. destruct (PyStr.startswith "/" r); simpl; try reflexivity.
    destruct (Nat.eqb_spec (List.length p + 1) 0); [lia | reflexivity].
Qed.

Lemma parent_snoc (p : Path) (c : string) :
  part_ok c = true -> parent (p ++ [c])%list = p.
Proof.
  intros H. unfold parent. rewrite removelast_last, length_app.
  destruct p as [|r p].
  - change ([] ++ [c])%list with [c].
    rewrite (has_root_relative c [] H). reflexivity.
  - simpl. destruct (PyStr.startswith "/" r); simpl; try reflexivity.
    destruct (Nat.eqb_spec (List.length p + 1) 0); [lia | reflexivity].
Qed.

(** What [Path(s)] makes is a root or none, then parts without a
    separator. *)
Lemma of_str_ok (s : string) : path_ok (of_str s) = true.
Proof.
  assert (Hparts : relative_ok (filter component (PyStr.split "/" s)) = true).
  { pose proof (split_parts "/" s) as Hall.
    induction Hall as [|c l Hc Hall IH]; simpl; [reflexivity|].
    destruct (component c) eqn:Hcomp; [|exact IH].
    simpl. unfold part_ok at 1. now rewrite Hcomp, Hc, IH. }
  unfold of_str, root_of.
  destruct (PyStr.startswith "///" s); [exact Hparts|].
  destruct (PyStr.startswith "//" s); [exact Hparts|].
  destruct (PyStr.startswith "/" s); [exact Hparts|].
  simpl. destruct (filter component (PyStr.split "/" s)) as [|c l] eqn:Hf;
    [reflexivity|].
  unfold path_ok.
  assert (Hc : part_ok c = true)
    by (simpl in Hparts; now apply andb_true_iff in Hparts).
  destruct (part_ok_parts c Hc) as [_ [Hs _]].
  destruct (String.eqb_spec c "/") as [->|_]; [discriminate Hs|].
  destruct (String.eqb_spec c "//") as [->|_]; [discriminate Hs|].
  exact Hparts.
Qed.

Lemma relative_ok_app (p q : Path) :
  relative_ok (p ++ q)%list = relative_ok p && relative_ok q.
Proof. unfold relative_ok. apply forallb_app. Qed.

Lemma path_ok_app (p q : Path) :
  path_ok p = true -> relative_ok q = true -> path_ok (p ++ q)%list = true.
Proof.
  destruct p as [|r p].
  - intros _ H. destruct q as [|c q]; [reflexivity|].
    simpl. pose proof H as H'. simpl in H'. apply andb_true_iff in H'.
    destruct H' as [Hc _]. destruct (part_ok_parts c Hc) as [_ [Hs _]].
    destruct (String.eqb_spec c "/") as [->|_]; [discriminate Hs|].
    destruct (String.eqb_spec c "//") as [->|_]; [discriminate Hs|].
    exact H.
  - intros Hp Hq. change ((r :: p) ++ q)%list with (r :: (p ++ q))%list.
    unfold path_ok in *.
    destruct (String.eqb r "/" || String.eqb r "//").
    + now rewrite relative_ok_app, Hp, Hq.
    + change (r :: (p ++ q))%list with ((r :: p) ++ q)%list.
      now rewrite relative_ok_app, Hp, Hq.
Qed.

Lemma path_ok_relative (p : Path) :
  path_ok p = true -> has_root p = false -> relative_ok p = true.
Proof.
  destruct p as [|r p]; [reflexivity|]. simpl.
  destruct (String.eqb_spec r "/") as [->|_]; [discriminate|].
  destruct (String.eqb_spec r "//") as [->|_]; [discriminate|].
  auto.
Qed.

Lemma joinpath_ok (p q : Path) :
  path_ok p = true -> path_ok q = true -> path_ok (joinpath p q) = true.
Proof.
  intros Hp Hq. unfold joinpath. destruct (has_root q) eqn:Hr; [exact Hq|].
  apply path_ok_app; [exact Hp|]. now apply path_ok_relative.
Qed.

Lemma last_relative_ok (p : Path) :
  relative_ok p = true -> contains "/" (last p EmptyString) = false.
Proof.
  induction p as [|c p IH]; [reflexivity|].
  intros H. simpl in H. apply andb_true_iff in H. destruct H as [Hc Hp].
  destruct p as [|d p]; [|exact (IH Hp)].
  simpl. now destruct (part_ok_parts c Hc) as [_ [Hs _]].
Qed.

(** The name of such a path has no separator. *)
Lemma name_without_slash (p : Path) :
  path_ok p = true -> contains "/" (name p) = false.
Proof.
  intros H. unfold name.
  destruct (List.length p =? (if has_root p then 1 else 0))%nat eqn:Hl;
    [reflexivity|].
  destruct p as [|r p]; [reflexivity|].
  simpl in H.
  destruct (String.eqb r "/" || String.eqb r "//") eqn:Hr.
  - destruct p as [|c p].
    + apply orb_true_iff in Hr.
      destruct Hr as [Hr|Hr]; apply String.eqb_eq in Hr; subst r;
        discriminate Hl.
    + change (last (r :: c :: p) EmptyString) with (last (c :: p) EmptyString).
      now apply last_relative_ok.
  - now apply (last_relative_ok (r :: p)).
Qed.

(** ** The text of an offset and the name of an output *)

Lemma contains_take (c : ascii) (n : nat) (s : string) :
  contains c s = false -> contains c (PyStr.take n s) = false.
Proof.
  revert s; induction n as [|n IH]; intros [|a s]; simpl; auto.
  intros H. apply orb_false_iff in H. destruct H as [Ha Hs].
  now rewrite Ha, IH.
Qed.

Lemma contains_drop (c : ascii) (n : nat) (s : string) :
  contains c s = false -> contains c (PyStr.drop n s) = false.
Proof.
  revert s; induction n as [|n IH]; intros [|a s]; simpl; auto.
  intros H. apply orb_false_iff in H. destruct H as [_ Hs]. now apply IH.
Qed.

Lemma contains_zeros (n : nat) : contains "/" (PyStr.zeros n) = false.
Proof. induction n as [|n IH]; simpl; auto. Qed.

Lemma contains_of_N (n : N) : contains "/" (PyStr.of_N n) = false.
Proof.
  unfold PyStr.of_N.
  assert (H : forall u, contains "/" (NilEmpty.string_of_uint u) = false)
    by (induction u; simpl; auto).
  destruct (N.to_uint n); try apply H. reflexivity.
Qed.

Lemma contains_rstrip_zeros (c : ascii) (s : string) :
  contains c s = false -> contains c (PyStr.rstrip_zeros s) = false.
Proof.
  induction s as [|a s IH]; simpl; [auto|].
  intros H. apply orb_false_iff in H. destruct H as [Ha Hs].
  specialize (IH Hs).
  destruct (PyStr.rstrip_zeros s) as [|b r].
  - destruct (Ascii.eqb a "0"); simpl; [reflexivity | now rewrite Ha].
  - simpl. simpl in IH. now rewrite Ha, IH.
Qed.

Lemma contains_zfill (w : nat) (n : N) :
  contains "/" (PyStr.zfill w n) = false.
Proof.
  unfold PyStr.zfill.
  now rewrite contains_append, contains_zeros, contains_of_N.
Qed.

(** The text of an offset has no separator. *)
Lemma format_g_without_slash (x : float) :
  contains "/" (PyFloat.format_g x) = false.
Proof.
  unfold PyFloat.format_g.
  destruct (Prim2SF x) as [s|s| |s m e]; try (destruct s; reflexivity);
    try reflexivity.
  destruct (PyFloat.digits6 m e) as [d x10].
  pose proof (contains_rstrip_zeros "/" _ (contains_of_N (Z.to_N d))) as Hds.
  set (ds := PyStr.rstrip_zeros (PyStr.of_N (Z.to_N d))) in *.
  rewrite contains_append.
  replace (contains "/" (PyFloat.sign_str s)) with false
    by (destruct s; reflexivity).
  rewrite orb_false_l.
  repeat match goal with
         | |- context [if ?b then _ else _] => destruct b
         end;
    rewrite ?contains_append, ?contains_take, ?contains_drop,
      ?contains_zeros, ?contains_zfill, ?Hds by assumption;
    reflexivity.
Qed.

Lemma stem_suffix_without (c : ascii) (p : Path) :
  contains c (name p) = false ->
  contains c (stem p) = false /\ contains c (suffix p) = false.
Proof.
  intros H. unfold stem, suffix.
  destruct ((0 <? PyStr.rfind "." (name p))
            && (PyStr.rfind "." (name p) <? PyStr.len (name p) - 1))%Z.
  - split; [now apply contains_take | now apply contains_drop].
  - split; [assumption | reflexivity].
Qed.

(** The name [build_output_name] gives without [overwrite] is a part of a
    path, when the input name has no separator. *)
Lemma output_name_part (p : Path) (t : float) :
  contains "/" (name p) = false ->
  part_ok (build_output_name p t false) = true.
Proof.
  intros H. destruct (stem_suffix_without "/" p H) as [Hstem Hsfx].
  unfold part_ok, build_output_name. apply andb_true_iff. split.
  - unfold component. apply negb_true_iff, orb_false_iff.
    split; apply String.eqb_neq; intros Heq;
      apply (f_equal String.length) in Heq;
      rewrite !length_append in Heq; simpl in Heq; lia.
  - rewrite !contains_append, Hstem, Hsfx, format_g_without_slash.
    reflexivity.
Qed.

Lemma output_name_differs (p : Path) (t : float) :
  build_output_name p t false <> name p.
Proof.
  unfold build_output_name. rewrite (name_stem_suffix p).
  apply append_grows. rewrite length_append. simpl. lia.
Qed.

(** The output name depends on the input path through its name only. *)
Lemma output_name_of_name (p q : Path) (t : float) (overwrite : bool) :
  name p = name q ->
  build_output_name p t overwrite = build_output_name q t overwrite.
Proof.
  intros H. unfold build_output_name, stem, suffix. now rewrite H.
Qed.

(** ** The jobs the planner makes *)

Lemma planned_input_ok (source_text display_name : string) :
  path_ok (div (of_str source_text) display_name) = true.
Proof. unfold div. apply joinpath_ok; apply of_str_ok. Qed.

Lemma planned_input (source output_root : Path) (t : float)
    (overwrite include preserve : bool) (d : string) :
  input_path (Gui.job_for_row source output_root t overwrite include preserve d)
  = div source d.
Proof. unfold Gui.job_for_row. now destruct include. Qed.

Lemma planned_output (source output_root : Path) (t : float)
    (overwrite include preserve : bool) (d : string) :
  output_path (Gui.job_for_row source output_root t overwrite include preserve d)
  = div (joinpath output_root
           (if preserve then parent (of_str d) else []))
      (build_output_name (div source d) t overwrite).
Proof. unfold Gui.job_for_row. now destruct include. Qed.

(** X6: without [overwrite] the planner never makes a job whose output is
    its own input, whatever the folders, the options and the display name:
    the last part of the output path is the name [build_output_name]
    gives, which is not the name of the input. *)
Theorem planned_output_is_not_the_input (source_text output_text : string)
    (t : float) (include preserve : bool) (d : string) :
  let job :=
    Gui.job_for_row (of_str source_text) (of_str output_text) t false
      include preserve d in
  name (output_path job) = build_output_name (input_path job) t false
  /\ output_path job <> input_path job.
Proof.
  cbv zeta. rewrite planned_input, planned_output.
  set (input := div (of_str source_text) d).
  assert (Hpart : part_ok (build_output_name input t false) = true).
  { apply output_name_part, name_without_slash, planned_input_ok. }
  rewrite (div_part _ _ Hpart), (name_snoc _ _ Hpart).
  split; [reflexivity|].
  intros Heq. apply (f_equal name) in Heq.
  rewrite (name_snoc _ _ Hpart) in Heq.
  exact (output_name_differs input t Heq).
Qed.

(** ** The extension of an output *)

Lemma rfind_from_without (c : ascii) (s : string) (i last : Z) :
  contains c s = false -> PyStr.rfind_from c s i last = last.
Proof.
  revert i last; induction s as [|a s IH]; intros i last; simpl; [auto|].
  intros H. apply orb_false_iff in H. destruct H as [Ha Hs].
  rewrite Ha. now apply IH.
Qed.

Lemma rfind_from_append (c : ascii) (a b : string) (i last : Z) :
  PyStr.rfind_from c (a ++ b) i last
  = PyStr.rfind_from c b (i + PyStr.len a) (PyStr.rfind_from c a i last).
Proof.
  revert i last; induction a as [|x a IH]; intros i last.
  - change (EmptyString ++ b) with b. unfold PyStr.len. simpl.
    now rewrite Z.add_0_r.
  - change (String x a ++ b) with (String x (a ++ b)).
    simpl PyStr.rfind_from at 1 3. rewrite IH. f_equal.
    unfold PyStr.len. simpl String.length. lia.
Qed.

Lemma rfind_from_least (c : ascii) (s : string) :
  forall i last, (last < i)%Z -> (last <= PyStr.rfind_from c s i last)%Z.
Proof.
  induction s as [|x s IH]; intros i last Hlt; simpl; [lia|].
  destruct (Ascii.eqb x c).
  - specialize (IH (i + 1)%Z i). lia.
  - specialize (IH (i + 1)%Z last). lia.
Qed.

Lemma rfind_from_with (c : ascii) (s : string) :
  forall i last,
    (last < i)%Z -> contains c s = true ->
    (last < PyStr.rfind_from c s i last)%Z.
Proof.
  induction s as [|x s IH]; intros i last Hlt Hs; [discriminate Hs|].
  simpl in *. destruct (Ascii.eqb x c).
  - pose proof (rfind_from_least c s (i + 1)%Z i). lia.
  - apply IH; [lia | exact Hs].
Qed.

(** Where [rfind] finds the character: the text splits there, and the
    character does not occur after it. *)
Lemma rfind_from_found (c : ascii) (s : string) :
  forall i last,
    (last < i)%Z ->
    PyStr.rfind_from c s i last <> last ->
    exists a b,
      s = a ++ String c b /\ contains c b = false
      /\ PyStr.rfind_from c s i last = (i + PyStr.len a)%Z.
Proof.
  induction s as [|x s IH]; intros i last Hlt Hne; simpl in *;
    [now elim Hne|].
  destruct (contains c s) eqn:Hs.
  - destruct (IH (i + 1)%Z (if Ascii.eqb x c then i else last))
      as [a [b [-> [Hb Hr]]]].
    + destruct (Ascii.eqb x c); lia.
    + assert (Hlt' : ((if Ascii.eqb x c then i else last) < i + 1)%Z)
        by (destruct (Ascii.eqb x c); lia).
      pose proof (rfind_from_with c _ _ _ Hlt' Hs). lia.
    + exists (String x a), b. repeat split; auto.
      rewrite Hr. unfold PyStr.len. simpl String.length. lia.
  - rewrite rfind_from_without in * by assumption.
    destruct (Ascii.eqb_spec x c) as [->|Hx]; [|now elim Hne].
    exists EmptyString, s. repeat split; auto.
    unfold PyStr.len. simpl. lia.
Qed.

Lemma drop_append (a b : string) : PyStr.drop (String.length a) (a ++ b) = b.
Proof. induction a as [|x a IH]; [now destruct b | exact IH]. Qed.

Lemma take_append (a b : string) : PyStr.take (String.length a) (a ++ b) = a.
Proof.
  induction a as [|x a IH]; [now destruct b|].
  change (String x (PyStr.take (String.length a) (a ++ b)) = String x a).
  now rewrite IH.
Qed.

(** A name with a suffix: the stem, then a dot and what follows the last
    dot, neither empty. *)
Lemma suffix_found (p : Path) :
  suffix p <> EmptyString ->
  exists a b,
    name p = a ++ String "." b /\ contains "." b = false
    /\ a <> EmptyString /\ b <> EmptyString
    /\ stem p = a /\ suffix p = String "." b.
Proof.
  unfold suffix, stem.
  destruct ((0 <? PyStr.rfind "." (name p))
            && (PyStr.rfind "." (name p) <? PyStr.len (name p) - 1))%Z
    eqn:Hc; [|intros H; now elim H].
  intros _. apply andb_true_iff in Hc. destruct Hc as [H0 H1].
  apply Z.ltb_lt in H0, H1. unfold PyStr.rfind in *.
  destruct (rfind_from_found "." (name p) 0 (-1)) as [a [b [Hn [Hb Hr]]]];
    [lia | lia |].
  rewrite Z.add_0_l in Hr. rewrite Hr in *. rewrite Hn in *. clear Hr Hn.
  unfold PyStr.len in *. rewrite length_append in H1. simpl in H0, H1.
  rewrite Nat2Z.id.
  exists a, b. rewrite take_append, drop_append. repeat split; auto.
  - intros ->. simpl in H0. lia.
  - intros ->. simpl in H1. lia.
Qed.

Lemma suffix_of_name (p q : Path) : name p = name q -> suffix p = suffix q.
Proof. intros H. unfold suffix. now rewrite H. Qed.

(** The suffix of a name made of [a], a dot and [b], where [b] has no
    dot and neither is empty. *)
Lemma suffix_of_parts (p : Path) (a b : string) :
  name p = a ++ String "." b ->
  contains "." b = false -> a <> EmptyString -> b <> EmptyString ->
  suffix p = String "." b.
Proof.
  intros Hn Hb Ha Hb'. unfold suffix. rewrite Hn. unfold PyStr.rfind.
  rewrite rfind_from_append. simpl PyStr.rfind_from.
  rewrite rfind_from_without by assumption.
  unfold PyStr.len. rewrite length_append. simpl.
  rewrite Nat2Z.id, drop_append.
  assert (0 < String.length a) by (destruct a; [now elim Ha | simpl; lia]).
  assert (0 < String.length b) by (destruct b; [now elim Hb' | simpl; lia]).
  destruct (Z.ltb_spec 0 (Z.of_nat (String.length a))); [|lia].
  destruct (Z.ltb_spec (Z.of_nat (String.length a))
              (Z.of_nat (String.length a + S (String.length b)) - 1));
    [reflexivity | lia].
Qed.

(** X7: without [overwrite] the output of a job keeps the extension of its
    input, when the input has one: the output of an MP4 file is an MP4
    file again, for every offset, also one whose text has a dot. *)
Theorem planned_output_keeps_extension (source_text output_text : string)
    (t : float) (include preserve : bool) (d : string) :
  let job :=
    Gui.job_for_row (of_str source_text) (of_str output_text) t false
      include preserve d in
  suffix (input_path job) <> EmptyString ->
  suffix (output_path job) = suffix (input_path job)
  /\ is_mp4 (output_path job) = is_mp4 (input_path job).
Proof.
  cbv zeta. rewrite planned_input, planned_output.
  set (input := div (of_str source_text) d).
  intros Hsfx.
  assert (Hpart : part_ok (build_output_name input t false) = true).
  { apply output_name_part, name_without_slash, planned_input_ok. }
  rewrite (div_part _ _ Hpart).
  set (out := (_ ++ [build_output_name input t false])%list).
  assert (Hname : name out = build_output_name input t false)
    by apply (name_snoc _ _ Hpart).
  destruct (suffix_found input Hsfx) as [a [b [Hn [Hb [Ha [Hb' [Hst Hsx]]]]]]].
  assert (Hout : suffix out = suffix input).
  { rewrite Hsx.
    apply (suffix_of_parts out (a ++ "_trim" ++ PyFloat.format_g t ++ "s") b);
      auto.
    - rewrite Hname. unfold build_output_name. rewrite Hst, Hsx.
      now rewrite !string_append_assoc.
    - intros Heq. apply (f_equal String.length) in Heq.
      rewrite !length_append in Heq. simpl in Heq. lia. }
  split; [exact Hout|]. unfold is_mp4. now rewrite Hout.
Qed.

Lemma planned_output_keeps_extension_witness :
  let job :=
    Gui.job_for_row (of_str "/videos") (of_str "/videos/trimmed") 0.5 false
      true true "holiday/day.1.MP4" in
  suffix (output_path job) = ".MP4"
  /\ str (output_path job) = "/videos/trimmed/holiday/day.1_trim0.5s.MP4".
Proof.
  intros job.
  assert (Hsfx : suffix (input_path job) <> EmptyString)
    by (vm_compute; discriminate).
  destruct (planned_output_keeps_extension "/videos" "/videos/trimmed" 0.5
              true true "holiday/day.1.MP4" Hsfx) as [H _].
  split; vm_compute; reflexivity.
Defined.

(** ** Where the outputs go *)

Lemma relative_snoc (rel : Path) :
  relative_ok rel = true -> rel <> [] ->
  exists rel' c,
    rel = (rel' ++ [c])%list /\ relative_ok rel' = true /\ part_ok c = true.
Proof.
  intros Hok Hne. destruct (exists_last Hne) as [rel' [c ->]].
  rewrite relative_ok_app in Hok. apply andb_true_iff in Hok.
  destruct Hok as [Hrel Hc]. simpl in Hc. rewrite andb_true_r in Hc.
  exists rel', c. auto.
Qed.

(** The parse of a display name that is relative and not empty: parts
    without a separator, the last of them the name. *)
Lemma display_name_parts (d : string) :
  has_root (of_str d) = false -> of_str d <> [] ->
  exists rel' c,
    of_str d = (rel' ++ [c])%list /\ relative_ok rel' = true
    /\ part_ok c = true.
Proof.
  intros Hroot Hne. apply relative_snoc; [|exact Hne].
  apply path_ok_relative; [apply of_str_ok | exact Hroot].
Qed.

Lemma div_relative (source : Path) (d : string) (rel' : Path) (c : string) :
  of_str d = (rel' ++ [c])%list -> relative_ok rel' = true ->
  part_ok c = true ->
  div source d = ((source ++ rel') ++ [c])%list.
Proof.
  intros Hd Hrel Hc. unfold div. rewrite Hd.
  rewrite joinpath_relative, app_assoc; [reflexivity|].
  rewrite relative_ok_app, Hrel. simpl. now rewrite Hc.
Qed.

(** The output name of a job whose input ends in the part [c] is a part
    again, with or without [overwrite]. *)
Lemma output_name_of_part (p : Path) (c : string) (t : float)
    (overwrite : bool) :
  part_ok c = true ->
  part_ok (build_output_name (p ++ [c])%list t overwrite) = true.
Proof.
  intros Hc. destruct overwrite.
  - unfold build_output_name. now rewrite name_snoc.
  - apply output_name_part. rewrite name_snoc by assumption.
    now destruct (part_ok_parts c Hc) as [_ [Hs _]].
Qed.

(** X8: where the output of a job goes. For a display name that is a
    relative path, the output lies in the output folder itself, or, when
    the folder structure is preserved, in the subfolder of the output
    folder that mirrors the subfolder of the input under the source; its
    name is the one [build_output_name] gives. *)
Theorem planned_output_location (source output_root : Path) (t : float)
    (overwrite include preserve : bool) (d : string) :
  has_root (of_str d) = false -> of_str d <> [] ->
  let job :=
    Gui.job_for_row source output_root t overwrite include preserve d in
  let relative_dir := parent (of_str d) in
  input_path job = (source ++ of_str d)%list
  /\ parent (input_path job) = (source ++ relative_dir)%list
  /\ parent (output_path job)
     = (output_root ++ (if preserve then relative_dir else []))%list
  /\ name (output_path job) = build_output_name (input_path job) t overwrite.
Proof.
  intros Hroot Hne. cbv zeta. rewrite planned_input, planned_output.
  destruct (display_name_parts d Hroot Hne) as [rel' [c [Hd [Hrel Hc]]]].
  rewrite (div_relative source d rel' c Hd Hrel Hc), Hd.
  rewrite (parent_snoc rel' c Hc), (parent_snoc _ c Hc).
  pose proof (output_name_of_part (source ++ rel')%list c t overwrite Hc)
    as Hout.
  rewrite (div_part _ _ Hout), (parent_snoc _ _ Hout), (name_snoc _ _ Hout).
  rewrite <- app_assoc. repeat split; auto.
  destruct preserve; rewrite joinpath_relative; auto.
Qed.

Lemma planned_output_location_witness :
  let job :=
    Gui.job_for_row (of_str "/videos") (of_str "/out") 2 false true true
      "holiday/beach/day1.mp4" in
  parent (output_path job) = of_str "/out/holiday/beach"
  /\ name (output_path job) = "day1_trim2s.mp4".
Proof.
  intros job.
  destruct (planned_output_location (of_str "/videos") (of_str "/out") 2
              false true true "holiday/beach/day1.mp4" eq_refl)
    as [_ [_ [Hdir Hname]]]; [discriminate|].
  split; [exact Hdir | exact Hname].
Defined.

(** X9: with [overwrite] on and the source folder given as output folder,
    the output of a job is its input: the trimmer is asked to write the
    file it reads (for the files of the source folder itself, and for all
    files when the folder structure is preserved). *)
Theorem overwrite_into_source_is_in_place (source : Path) (t : float)
    (include preserve : bool) (d : string) :
  has_root (of_str d) = false -> of_str d <> [] ->
  preserve = true \/ List.length (of_str d) = 1 ->
  let job := Gui.job_for_row source source t true include preserve d in
  output_path job = input_path job.
Proof.
  intros Hroot Hne Hflat. cbv zeta. rewrite planned_input, planned_output.
  destruct (display_name_parts d Hroot Hne) as [rel' [c [Hd [Hrel Hc]]]].
  rewrite (div_relative source d rel' c Hd Hrel Hc), Hd.
  unfold build_output_name. rewrite (name_snoc _ c Hc), (div_part _ _ Hc).
  rewrite (parent_snoc rel' c Hc).
  destruct preserve.
  - now rewrite joinpath_relative.
  - destruct Hflat as [Hflat|Hflat]; [discriminate|].
    rewrite Hd, length_app in Hflat. simpl in Hflat.
    destruct rel'; [|simpl in Hflat; lia].
    unfold joinpath. simpl. now rewrite !app_nil_r.
Qed.

Lemma overwrite_into_source_is_in_place_witness :
  let job :=
    Gui.job_for_row (of_str "/videos") (of_str "/videos") 2 true false false
      "a.mp4" in
  output_path job = of_str "/videos/a.mp4"
  /\ input_path job = of_str "/videos/a.mp4".
Proof.
  intros job.
  assert (H : output_path job = input_path job).
  { apply (overwrite_into_source_is_in_place (of_str "/videos") 2 false
             false "a.mp4");
      [reflexivity | discriminate | right; reflexivity]. }
  split; [rewrite H|]; reflexivity.
Defined.

(** X10: when the folder structure is not preserved, two files of the same
    name in different subfolders are given the same output path: both jobs
    write to one file. *)
Theorem flat_outputs_collide (source output_root : Path) (t : float)
    (overwrite include : bool) (d1 d2 : string) :
  has_root (of_str d1) = false -> of_str d1 <> [] ->
  has_root (of_str d2) = false -> of_str d2 <> [] ->
  name (of_str d1) = name (of_str d2) ->
  output_path (Gui.job_for_row source output_root t overwrite include false d1)
  = output_path
      (Gui.job_for_row source output_root t overwrite include false d2).
Proof.
  intros Hr1 Hn1 Hr2 Hn2 Hname. rewrite !planned_output.
  destruct (display_name_parts d1 Hr1 Hn1) as [r1 [c1 [Hd1 [Hrel1 Hc1]]]].
  destruct (display_name_parts d2 Hr2 Hn2) as [r2 [c2 [Hd2 [Hrel2 Hc2]]]].
  rewrite Hd1, Hd2, !name_snoc in Hname by assumption. subst c2.
  f_equal. apply output_name_of_name.
  rewrite (div_relative source d1 r1 c1 Hd1 Hrel1 Hc1).
  rewrite (div_relative source d2 r2 c1 Hd2 Hrel2 Hc2).
  now rewrite !name_snoc.
Qed.

Lemma flat_outputs_collide_witness :
  let job d :=
    Gui.job_for_row (of_str "/videos") (of_str "/out") 2 false true false d in
  output_path (job "monday/clip.mp4") = output_path (job "tuesday/clip.mp4")
  /\ output_path (job "monday/clip.mp4") = of_str "/out/clip_trim2s.mp4"
  /\ input_path (job "monday/clip.mp4") = of_str "/videos/monday/clip.mp4"
  /\ input_path (job "tuesday/clip.mp4") = of_str "/videos/tuesday/clip.mp4".
Proof.
  intros job. split.
  - apply (flat_outputs_collide (of_str "/videos") (of_str "/out") 2 false
             true "monday/clip.mp4" "tuesday/clip.mp4");
      try reflexivity; discriminate.
  - repeat split; vm_compute; reflexivity.
Defined.

(** ** From the scan to the jobs *)

Lemma scanned_file (source : Path) (fs : MainWindow.Source) (include : bool)
    (win : MainWindow.window) (p : Path) :
  MainWindow.source_exists fs = true ->
  In p (MainWindow.file_paths (MainWindow._scan_files source fs include win)) ->
  exists e,
    In e (if include then MainWindow.rglob fs else MainWindow.iterdir fs)
    /\ MainWindow.entry_path e = p
    /\ MainWindow.is_file e = true /\ is_mp4 p = true.
Proof.
  intros Hex. unfold MainWindow._scan_files. rewrite Hex. simpl.
  intros Hin.
  apply (Permutation_in _ (Permutation_sym (sort_perm _ _ _))) in Hin.
  apply in_map_iff in Hin. destruct Hin as [e [He Hin]].
  apply filter_In in Hin. destruct Hin as [Hin Hf].
  apply andb_true_iff in Hf. destruct Hf as [Hfile Hmp4].
  exists e. subst p. auto.
Qed.

Lemma scanned_table (source : Path) (fs : MainWindow.Source) (include : bool)
    (win : MainWindow.window) :
  MainWindow.source_exists fs = true ->
  let win' := MainWindow._scan_files source fs include win in
  MainWindow.table win'
  = map (fun file_path =>
           MainWindow.mkRow
             (if include
              then str (MainWindow.relative_to source file_path)
              else name file_path)
             "Pending" EmptyString)
      (MainWindow.file_paths win').
Proof.
  intros Hex. unfold MainWindow._scan_files. rewrite Hex. reflexivity.
Qed.

(** X11: on a listing of paths below the source folder, the input paths of
    the planned jobs are the files the scan found, in the same order: the
    display name of a row leads back to the file it was made from. *)
Theorem planned_inputs_are_the_scanned_files (source output_root : Path)
    (fs : MainWindow.Source) (win : MainWindow.window) (t : float)
    (overwrite include preserve : bool) :
  MainWindow.source_exists fs = true ->
  well_listed source fs ->
  let win' := MainWindow._scan_files source fs include win in
  map (fun r =>
         input_path
           (Gui.job_for_row source output_root t overwrite include preserve
              (MainWindow.file r)))
    (MainWindow.table win')
  = MainWindow.file_paths win'.
Proof.
  intros Hex [Hiter Hrglob]. cbv zeta.
  rewrite (scanned_table source fs include win Hex). cbv zeta.
  rewrite map_map. rewrite <- (map_id (MainWindow.file_paths _)) at 2.
  apply map_ext_in. intros p Hin. simpl MainWindow.file.
  rewrite planned_input.
  destruct (scanned_file source fs include win p Hex Hin) as [e [He [Hp _]]].
  destruct include.
  - rewrite Forall_forall in Hrglob. specialize (Hrglob e He).
    rewrite Hp in Hrglob. destruct Hrglob as [rel [-> [Hne Hrel]]].
    unfold MainWindow.relative_to. rewrite skipn_app, Nat.sub_diag.
    rewrite skipn_all. simpl.
    unfold div. rewrite of_str_str_relative by assumption.
    now apply joinpath_relative.
  - rewrite Forall_forall in Hiter. specialize (Hiter e He).
    rewrite Hp in Hiter. destruct Hiter as [c [-> Hc]].
    rewrite name_snoc by assumption. now apply div_part.
Qed.

Lemma planned_inputs_are_the_scanned_files_witness :
  let fs := MainWindow.mkSource true listing_1 [] in
  let win' := MainWindow._scan_files videos fs false empty_window in
  map (fun r =>
         input_path
           (Gui.job_for_row videos (of_str "/out") 2 false false false
              (MainWindow.file r)))
    (MainWindow.table win')
  = [div videos "a.MP4"; div videos "b.mp4"].
Proof.
  intros fs win'.
  assert (Hlist : well_listed videos fs).
  { split; [|constructor].
    repeat constructor; eexists; split; reflexivity. }
  pose proof (planned_inputs_are_the_scanned_files videos (of_str "/out") fs
                empty_window 2 false false false eq_refl Hlist) as H.
  cbv zeta in H. unfold win'. rewrite H. vm_compute. reflexivity.
Defined.

(** ** The progress counter *)






(** ** The window during and after a run *)

Lemma deliver_app (ui : Gui.t) (a b : list action) :
  Gui.deliver ui (a ++ b) = Gui.deliver (Gui.deliver ui a) b.
Proof. unfold Gui.deliver. apply fold_left_app. Qed.

(** What the signals of a worker never touch, and what they do to the
    table. *)
Lemma deliver_frame (tr : list action) :
  forall ui,
    Gui.ffmpeg_paths (Gui.deliver ui tr) = Gui.ffmpeg_paths ui
    /\ Gui.settings (Gui.deliver ui tr) = Gui.settings ui
    /\ Gui.worker (Gui.deliver ui tr) = Gui.worker ui
    /\ MainWindow.file_paths (Gui.win (Gui.deliver ui tr))
       = MainWindow.file_paths (Gui.win ui)
    /\ MainWindow.table (Gui.win (Gui.deliver ui tr))
       = MainWindow.deliver (MainWindow.table (Gui.win ui)) tr.
Proof.
  induction tr as [|a tr IH]; intros ui; [repeat split|].
  change (Gui.deliver ui (a :: tr)) with (Gui.deliver (Gui.handle ui a) tr).
  change (MainWindow.deliver (MainWindow.table (Gui.win ui)) (a :: tr))
    with (MainWindow.deliver
            (MainWindow.handle (MainWindow.table (Gui.win ui)) a) tr).
  destruct (IH (Gui.handle ui a)) as [H1 [H2 [H3 [H4 H5]]]].
  rewrite H1, H2, H3, H4, H5.
  destruct a as [[r s m| | |]| | | |]; repeat split.
Qed.

Lemma deliver_buttons (tr : list action) :
  forall ui,
    ~ In (emit finished) tr ->
    Gui.buttons (Gui.deliver ui tr) = Gui.buttons ui.
Proof.
  induction tr as [|a tr IH]; intros ui Hnot; [reflexivity|].
  change (Gui.deliver ui (a :: tr)) with (Gui.deliver (Gui.handle ui a) tr).
  rewrite IH by (intros Hin; apply Hnot; now right).
  destruct a as [[r s m| | |]| | | |]; try reflexivity.
  exfalso. apply Hnot. now left.
Qed.

Lemma setItem_file (tbl : list MainWindow.row) (r : nat) (s m : string) :
  map MainWindow.file (MainWindow.setItem tbl r s m)
  = map MainWindow.file tbl.
Proof.
  revert r; induction tbl as [|x tbl IH]; intros [|r]; simpl; auto.
  now rewrite IH.
Qed.

Lemma deliver_file (tr : list action) :
  forall tbl,
    map MainWindow.file (MainWindow.deliver tbl tr)
    = map MainWindow.file tbl.
Proof.
  unfold MainWindow.deliver.
  induction tr as [|a tr IH]; intros tbl; [reflexivity|].
  simpl. rewrite IH.
  destruct a as [[r s m| | |]| | | |]; try reflexivity.
  simpl. unfold MainWindow._update_progress.
  destruct (r <? List.length tbl)%nat; [apply setItem_file | reflexivity].
Qed.

(** X13: the window after the signals of a run. The file column of the
    table, the settings and the worker are as before, and the table is the
    one the [progress] events give. When the run returns, the Scan and
    Start buttons are enabled again and Cancel is disabled, the progress
    bar and its label show all jobs as processed (also after a
    cancellation), and the log ends with the completion line. When an
    exception ends the run, the buttons stay as they were: the window is
    never told that the run is over. *)
Theorem window_after_run (w : Worker.t) (world : nat -> job_world)
    (st : state) (ui : Gui.t) :
  let total := List.length (jobs w) in
  let ui' := Gui.deliver ui (trace_of w world st) in
  Gui.settings ui' = Gui.settings ui
  /\ Gui.worker ui' = Gui.worker ui
  /\ MainWindow.table (Gui.win ui')
     = MainWindow.deliver (MainWindow.table (Gui.win ui))
         (trace_of w world st)
  /\ map MainWindow.file (MainWindow.table (Gui.win ui'))
     = map MainWindow.file (MainWindow.table (Gui.win ui))
  /\ match outcome_of w world st with
     | returned =>
         Gui.buttons ui' = Gui.mkButtons true true false
         /\ Gui.progress_bar ui'
            = Gui.mkProgress (if (total =? 0)%nat then 1 else total) total
                ("Processed " ++ Gui.str_nat total ++ " of "
                 ++ Gui.str_nat total)
         /\ last (Gui.log_panel ui') EmptyString = "Processing complete."
     | exception _ => Gui.buttons ui' = Gui.buttons ui
     end.
Proof.
  cbv zeta.
  destruct (deliver_frame (trace_of w world st) ui) as [_ [H2 [H3 [_ H5]]]].
  split; [exact H2|]. split; [exact H3|]. split; [exact H5|].
  split; [rewrite H5; apply deliver_file|].
  unfold trace_of, outcome_of, run.
  destruct (loop w world (List.length (jobs w)) 1 (jobs w) st)
    as [[tr st'] x] eqn:Hl.
  pose proof (loop_signals _ _ _ _ _ _ _ _ _ Hl) as Hnot.
  destruct x; simpl.
  - rewrite deliver_app. simpl. rewrite Nat.min_id, last_last. auto.
  - rewrite deliver_app. simpl. rewrite Nat.min_id, last_last. auto.
  - now apply deliver_buttons.
Qed.

(** ** The start of a run *)






(** ** The packaging script and the locator *)

Lemma build_paths (h : Host) (project_root : Path) :
  let '(ffmpeg_name, ffprobe_name, _) := Build.names h in
  div (div project_root "bin") ffmpeg_name
  = bundled_exe h project_root "ffmpeg"
  /\ div (div project_root "bin") ffprobe_name
     = bundled_exe h project_root "ffprobe".
Proof.
  unfold Build.names, bundled_exe.
  destruct (PyStr.startswith "win" (platform h)); unfold div, joinpath;
    simpl; rewrite <- !app_assoc; split; reflexivity.
Qed.

(** X15: [build.py] bundles the executables it finds at the very paths
    [locate_ffmpeg] looks at, for the same platform test: each one that
    exists gives one [--add-binary] option with the destination [bin].
    When it bundles both, [locate_ffmpeg] on the same folder returns that
    pair; when it bundles fewer, whatever [locate_ffmpeg] returns was
    resolved on the search path, and the build goes ahead with the partial
    bundle all the same. *)
Theorem build_bundles_what_locate_looks_for (h : Host) (project_root : Path)
    (executable : string) :
  let local_ffmpeg := bundled_exe h project_root "ffmpeg" in
  let local_ffprobe := bundled_exe h project_root "ffprobe" in
  let separator := if PyStr.startswith "win" (platform h) then ";" else ":" in
  let bundled := filter (path_exists h) [local_ffmpeg; local_ffprobe] in
  Build.add_binaries h project_root
  = map (fun p => str p ++ separator ++ "bin") bundled
  /\ List.length (Build.command h project_root executable)
     = 10 + 2 * List.length bundled
  /\ (List.length bundled = 2 ->
      locate_ffmpeg h project_root
      = Some (mkFfmpegPaths local_ffmpeg local_ffprobe))
  /\ (List.length bundled < 2 ->
      forall paths,
        locate_ffmpeg h project_root = Some paths ->
        exists f p,
          which h "ffmpeg" = Some f /\ which h "ffprobe" = Some p
          /\ paths = mkFfmpegPaths (of_str f) (of_str p)).
Proof.
  cbv zeta.
  assert (Hadd : Build.add_binaries h project_root
                 = map (fun p => str p
                                 ++ (if PyStr.startswith "win" (platform h)
                                     then ";" else ":") ++ "bin")
                     (filter (path_exists h)
                        [bundled_exe h project_root "ffmpeg";
                         bundled_exe h project_root "ffprobe"])).
  { pose proof (build_paths h project_root) as Hp.
    unfold Build.add_binaries. unfold Build.names in *.
    destruct (PyStr.startswith "win" (platform h));
      destruct Hp as [-> ->]; simpl;
      destruct (path_exists h (bundled_exe h project_root "ffmpeg"));
      destruct (path_exists h (bundled_exe h project_root "ffprobe"));
      reflexivity. }
  split; [exact Hadd|]. split.
  - unfold Build.command. rewrite Hadd, length_app.
    rewrite (flat_map_constant_length (c := 2)) by reflexivity.
    rewrite length_map. simpl. lia.
  - rewrite locate_ffmpeg_unfold. simpl.
    destruct (path_exists h (bundled_exe h project_root "ffmpeg"));
      destruct (path_exists h (bundled_exe h project_root "ffprobe"));
      simpl; (split; [intros Hlen; try reflexivity; discriminate Hlen|]);
      intros Hlen; try lia; intros paths;
      destruct (which h "ffmpeg") as [f|]; simpl;
      try discriminate;
      destruct (PyStr.truthy f); simpl; try discriminate;
      destruct (which h "ffprobe") as [p|]; simpl; try discriminate;
      destruct (PyStr.truthy p); simpl; try discriminate;
      intros [= <-]; exists f, p; auto.
Qed.

Lemma build_bundles_what_locate_looks_for_witness :
  let bundled :=
    filter (path_exists half_host)
      [bundled_exe half_host (of_str "/app") "ffmpeg";
       bundled_exe half_host (of_str "/app") "ffprobe"] in
  Build.add_binaries half_host (of_str "/app") = ["/app/bin/ffmpeg:bin"]
  /\ List.length bundled = 1
  /\ locate_ffmpeg bundled_host (of_str "/app")
     = Some (mkFfmpegPaths (of_str "/app/bin/ffmpeg")
               (of_str "/app/bin/ffprobe")).
Proof.
  intros bundled.
  destruct (build_bundles_what_locate_looks_for bundled_host (of_str "/app")
              "python") as [_ [_ [Hboth _]]].
  split; [vm_compute; reflexivity|]. split; [reflexivity|].
  exact (Hboth eq_refl).
Defined.

(** ** The folders the window proposes *)





(** ** One row per file *)



(** ** What a cancellation terminates *)











(** ** What a final status says about the job *)

Lemma error_text_truthy (result : CompletedProcess) :
  error_text result <> EmptyString.
Proof.
  unfold error_text, PyStr.or_else.
  destruct (PyStr.strip (stderr result)); discriminate.
Qed.

Lemma job_status_cause (w : Worker.t) (jw : job_world) (total index : nat)
    (job : FileJob) (r : nat) (s m : string) :
  In (emit (progress r s m)) (job_trace w jw total index job) ->
  (s = "Done" ->
   m = EmptyString
   /\ In (trimmer_call w job) (job_trace w jw total index job)
   /\ returncode (trimmer_result jw) = 0%Z)
  /\ (s = "Failed" ->
      m = error_text (trimmer_result jw)
      /\ In (trimmer_call w job) (job_trace w jw total index job)
      /\ returncode (trimmer_result jw) <> 0%Z)
  /\ (s = "Skipped" ->
      ~ In (trimmer_call w job) (job_trace w jw total index job)
      /\ ((exists d, probe_gave jw d
                     /\ (d <=? trim_seconds w + 0.01)%float = true
                     /\ m = short_message d (trim_seconds w))
          \/ (output_exists jw = true /\ overwrite w = false
              /\ m = "Output exists and overwrite is disabled"))).
Proof.
  name_trace. unfold_iteration.
  unfold trimmer_call, trimmer_result, error_text, short_message.
  case_world.
  all: intros -> Hin; in_cases; try discriminate.
  all: injection Hin as <- <- <-.
  all: (split; [intros Hs; try discriminate Hs
               |split; intros Hs; try discriminate Hs]).
  all: try (split; [reflexivity|]; split; [in_list|]).
  all: try match goal with
           | H : (?a =? 0)%Z = true |- ?a = 0%Z => now apply Z.eqb_eq
           | H : (?a =? 0)%Z = false |- ?a <> 0%Z => now apply Z.eqb_neq
           end.
  all: split; [intros Hin; in_cases; discriminate|].
  all: try (right; repeat split;
            match goal with
            | H : _ && negb _ = true |- _ =>
                apply andb_true_iff in H; destruct H as [H1 H2];
                first [exact H1 | now apply negb_true_iff in H2]
            end).
  all: left; eexists; split; [|split; [eassumption | reflexivity]].
  all: eexists; split; [eassumption|].
  all: match goal with
       | H : PyStr.truthy ?s = true |- ?s <> EmptyString =>
           intros Heq; rewrite Heq in H; discriminate H
       end.
Qed.

(** X19: what a final status says about its job. [Done] is reported only
    for a job whose trimmer was started and exited with zero; [Failed]
    only for a job whose trimmer was started and exited with another code,
    and with a message that is not empty; [Skipped] only for a job whose
    trimmer was not started, because the probe gave a duration at or below
    the threshold or because the output exists and overwriting is off, and
    the message says which. *)
Theorem final_status_is_sound (w : Worker.t) (world : nat -> job_world)
    (st : state) (r : nat) (s m : string) :
  In (emit (progress r s m)) (trace_of w world st) ->
  completed s ->
  exists job,
    nth_error (jobs w) r = Some job
    /\ let jw := world (S r) in
       let jt := job_trace w jw (List.length (jobs w)) (S r) job in
       (s = "Done" ->
        m = EmptyString /\ In (trimmer_call w job) jt
        /\ returncode (trimmer_result jw) = 0%Z)
       /\ (s = "Failed" ->
           m = error_text (trimmer_result jw) /\ m <> EmptyString
           /\ In (trimmer_call w job) jt
           /\ returncode (trimmer_result jw) <> 0%Z)
       /\ (s = "Skipped" ->
           ~ In (trimmer_call w job) jt
           /\ ((exists d, probe_gave jw d
                          /\ (d <=? trim_seconds w + 0.01)%float = true
                          /\ m = short_message d (trim_seconds w))
               \/ (output_exists jw = true /\ overwrite w = false
                   /\ m = "Output exists and overwrite is disabled"))).
Proof.
  intros Hin Hs.
  destruct (run_action_inv w world st _ Hin)
    as [H|[[r' H]|[H|[H|[k [job [pre [post [Hk [Hn [Hj _]]]]]]]]]]];
    try discriminate.
  - injection H as -> -> _. destruct Hs as [Hs|[Hs|Hs]]; discriminate Hs.
  - pose proof (job_trace_progress _ _ _ _ _ _ _ _ Hj) as [-> _].
    replace (S (k - 1)) with k by lia.
    exists job. split; [exact Hn|]. cbv zeta.
    destruct (job_status_cause _ _ _ _ _ _ _ _ Hj) as [Hdone [Hfail Hskip]].
    split; [exact Hdone|]. split; [|exact Hskip].
    intros Hf. destruct (Hfail Hf) as [Hm [Hcall Hrc]].
    repeat split; auto. rewrite Hm. apply error_text_truthy.
Qed.

Lemma final_status_is_sound_witness :
  In (emit (progress 1 "Failed" "moov atom not found"))
    (trace_of three_clips second_fails init)
  /\ returncode (trimmer_result (second_fails 2)) = 1%Z.
Proof.
  assert (Hin : In (emit (progress 1 "Failed" "moov atom not found"))
                  (trace_of three_clips second_fails init)) by in_trace.
  split; [exact Hin|].
  destruct (final_status_is_sound three_clips second_fails init 1 _ _ Hin)
    as [job _]; [right; left; reflexivity|].
  reflexivity.
Defined.

(** ** The table when a run has returned *)

Lemma last_progress_history (r : nat) (tr : list action) :
  last_progress r tr
  = match row_history r tr with
    | [] => None
    | h => Some (last h EmptyString)
    end.
Proof.
  induction tr as [|a tr IH]; [reflexivity|].
  simpl last_progress. rewrite IH.
  destruct a as [[r' s m| | |]| | | |]; simpl; try reflexivity;
    try (now destruct (row_history r tr)).
  destruct (r' =? r)%nat; [|now destruct (row_history r tr)].
  now destruct (row_history r tr).
Qed.

Lemma loop_step_history (w : Worker.t) (jw : job_world) (total index : nat)
    (job : FileJob) (tr_c tr' : list action) (r : nat) :
  (forall a, In a tr_c -> a = terminate) ->
  r <> index - 1 ->
  row_history r (job_trace w jw total index job ++ tr_c ++ tr')
  = row_history r tr'.
Proof.
  intros Hterm Hne.
  rewrite !row_history_app, (row_history_terminate r tr_c Hterm).
  now rewrite job_row_history_other.
Qed.

Lemma loop_final_rows (w : Worker.t) (world : nat -> job_world) (total : nat)
    (js : list FileJob) :
  forall index st tr st' x,
    1 <= index ->
    loop w world total index js st = (tr, st', x) ->
    (forall exc, x <> uncaught exc) ->
    exists k,
      k <= List.length js
      /\ (forall i, i < k ->
            exists s, row_history (index - 1 + i) tr = ["Processing"; s]
                      /\ completed s)
      /\ (k < List.length js -> row_history (index - 1 + k) tr = ["Canceled"])
      /\ (forall r, index - 1 + k < r -> row_history r tr = []).
Proof.
  induction js as [|job rest IH]; intros index st tr st' x Hi Hl Hx.
  - injection Hl as <- _ _. exists 0. simpl.
    repeat split; auto; intros; lia.
  - loop_cases Hl.
    + exists 0. simpl. rewrite Nat.add_0_r, Nat.eqb_refl.
      repeat split; auto; try (intros; lia).
      intros r Hr. destruct (Nat.eqb_spec (index - 1) r); [lia | reflexivity].
    + now elim (Hx exc).
    + destruct (IH _ _ _ _ _ (le_S _ _ Hi) Hrest Hx)
        as [k [Hk [Hdone [Hcan Hpend]]]].
      exists (S k). split; [simpl; lia|]. split; [|split].
      * intros [|i] Hlt.
        -- rewrite Nat.add_0_r, !row_history_app.
           rewrite (row_history_terminate _ tr_c Hterm).
           rewrite (loop_row_history_before _ _ _ _ _ _ _ _ _ (index - 1)
                      (le_S _ _ Hi) Hrest) by lia.
           pose proof (job_row_history w (world index) total index job) as Hh.
           destruct (job_flow w (world index) total index job) as [[]| |exc];
             [| |now destruct (Hflow exc)];
             destruct Hh as [s [-> Hs]]; exists s; auto.
        -- rewrite loop_step_history by (auto; lia).
           replace (index - 1 + S i) with (S index - 1 + i) by lia.
           apply Hdone. lia.
      * intros Hlt. rewrite loop_step_history by (auto; lia).
        replace (index - 1 + S k) with (S index - 1 + k) by lia.
        apply Hcan. simpl in Hlt. lia.
      * intros r Hr. rewrite loop_step_history by (auto; lia).
        apply Hpend. lia.
Qed.

(** X20: the table when a run has returned, after a scan had set every row
    to [Pending]: the rows of the jobs that were started read [Done],
    [Skipped] or [Failed], none is left on [Processing]; if the loop was
    stopped, the row of the first job that was not started reads
    [Canceled]; the rows after it still read [Pending]. *)
Theorem table_after_a_returned_run (w : Worker.t) (world : nat -> job_world)
    (st : state) :
  outcome_of w world st = returned ->
  let final := MainWindow.deliver (fresh_table w) (trace_of w world st) in
  exists k,
    k <= List.length (jobs w)
    /\ forall r,
         r < List.length (jobs w) ->
         (r < k ->
          exists s, MainWindow.status_of final r = Some s /\ completed s)
         /\ (r = k -> MainWindow.status_of final r = Some "Canceled")
         /\ (k < r -> MainWindow.status_of final r = Some "Pending").
Proof.
  intros Hout. cbv zeta.
  assert (Hstatus : forall r,
            r < List.length (jobs w) ->
            MainWindow.status_of
              (MainWindow.deliver (fresh_table w) (trace_of w world st)) r
            = match row_history r (trace_of w world st) with
              | [] => Some "Pending"
              | h => Some (last h EmptyString)
              end).
  { intros r Hr. rewrite deliver_status, last_progress_history.
    rewrite fresh_table_length, fresh_table_status by assumption.
    destruct (row_history r (trace_of w world st)); [reflexivity|].
    destruct (Nat.ltb_spec r (List.length (jobs w))); [reflexivity | lia]. }
  unfold outcome_of, run in Hout.
  destruct (loop w world (List.length (jobs w)) 1 (jobs w) st)
    as [[tr st'] x] eqn:Hl.
  assert (Hx : forall exc, x <> uncaught exc)
    by (intros exc ->; discriminate Hout).
  destruct (loop_final_rows _ _ _ _ _ _ _ _ _ (le_n 1) Hl Hx)
    as [k [Hk [Hdone [Hcan Hpend]]]].
  exists k. split; [exact Hk|].
  intros r Hr. rewrite (Hstatus r Hr), trace_of_history, Hl. simpl fst.
  simpl in Hdone, Hcan, Hpend.
  split; [|split].
  - intros Hlt. destruct (Hdone r Hlt) as [s [-> Hs]]. exists s. auto.
  - intros ->. now rewrite Hcan.
  - intros Hlt. now rewrite Hpend.
Qed.

Lemma table_after_a_returned_run_witness :
  let final :=
    MainWindow.deliver (fresh_table three_clips)
      (trace_of three_clips (cancel_during 1 cancel_in_flight) init) in
  outcome_of three_clips (cancel_during 1 cancel_in_flight) init = returned
  /\ map MainWindow.status final = ["Failed"; "Canceled"; "Pending"].
Proof.
  intros final.
  assert (Hout : outcome_of three_clips (cancel_during 1 cancel_in_flight)
                   init = returned) by (vm_compute; reflexivity).
  split; [exact Hout|].
  destruct (table_after_a_returned_run three_clips
              (cancel_during 1 cancel_in_flight) init Hout) as [k _].
  vm_compute. reflexivity.
Defined.
